(** * Meraki policy-object / MX L3 rule provisioning: model and properties

    A shallow embedding of [src/main.py] (token translation, rule merge and
    the provisioning driver) and of [src/meraki_api.py] (the reference index
    and the wrappers around the dashboard SDK), followed by the properties
    of the specification that are stated about them. *)

From Stdlib Require Import Ascii String.
From stdpp Require Import base gmap strings list fin_maps.

Open Scope string_scope.
Open Scope list_scope.

(** ** Python values

    The cells of a [csv.DictReader] row are strings, or [None] where a row is
    shorter than the header; the fields of a JSON rule record returned by the
    dashboard are strings and booleans.  Rows longer than the header (which
    [DictReader] stores under the key [None]) are not modelled. *)

Inductive value : Type :=
  | VStr (s : string)
  | VNone
  | VBool (b : bool).

#[global] Instance value_eq_dec : EqDecision value.
Proof. solve_decision. Defined.

#[global] Instance value_countable : Countable value.
Proof.
  refine (inj_countable'
    (λ v, match v with
          | VStr s => inl s
          | VNone => inr None
          | VBool b => inr (Some b)
          end)
    (λ x, match x with
          | inl s => VStr s
          | inr None => VNone
          | inr (Some b) => VBool b
          end) _).
  by intros [].
Defined.

(** [str(v)], as an f-string formats a value. *)
Definition py_str (v : value) : string :=
  match v with
  | VStr s => s
  | VNone => "None"
  | VBool true => "True"
  | VBool false => "False"
  end.

(** A dict with string keys: one CSV row, or one L3 rule record. *)
Abbreviation row := (gmap string value).
Abbreviation rule := (gmap string value).

(** ** Exceptions and results *)

Inductive exn : Type :=
  | KeyError (key : value)
  | AttributeError (attr : string)
  | TypeError (msg : string)
  | DashboardError (msg : string).

Inductive result (A : Type) : Type :=
  | Returns (a : A)
  | Raises (e : exn).
Arguments Returns {A} a.
Arguments Raises {A} e.

#[global] Instance exn_eq_dec : EqDecision exn.
Proof. solve_decision. Defined.
#[global] Instance result_eq_dec `{EqDecision A} : EqDecision (result A).
Proof. solve_decision. Defined.

#[global] Instance result_ret : MRet result := λ A a, Returns a.
#[global] Instance result_bind : MBind result := λ A B f m,
  match m with
  | Returns a => f a
  | Raises e => Raises e
  end.

(** ** [str.lower]

    Strings are byte strings.  [lower] maps the bytes 65..90 (the letters
    [A] to [Z]) to the bytes 97..122 and leaves every other byte as it is:
    this is [str.lower] on ASCII text, and only there, since [str.lower]
    also maps the letters outside ASCII.  The test against the default key
    is not affected (no string with a byte above 127 is mapped to [allow]
    or [any] by either function); the properties that compare the keys of
    arbitrary rules are stated for rules whose key fields are ASCII text
    ([ascii_keyed] below). *)

Definition is_upper (c : ascii) : bool :=
  let n := nat_of_ascii c in ((65 <=? n) && (n <=? 90))%nat.

Definition lower_char (c : ascii) : ascii :=
  if is_upper c then ascii_of_nat (nat_of_ascii c + 32) else c.

Fixpoint lower (s : string) : string :=
  match s with
  | EmptyString => EmptyString
  | String c s' => String (lower_char c) (lower s')
  end.

(** ** The rule merge engine: [combine_lists] *)

Definition key_fields : list string :=
  ["policy"; "protocol"; "srcCidr"; "destCidr"; "srcPort"; "destPort"].

(** [dic[key].lower()]: a missing key raises [KeyError], a value that is not
    a string has no attribute [lower]. *)
Definition lower_field (dic : rule) (key : string) : result string :=
  match dic !! key with
  | None => Raises (KeyError (VStr key))
  | Some (VStr s) => Returns (lower s)
  | Some _ => Raises (AttributeError "lower")
  end.

(** [tuple(f(key) for key in keys)]: the generator is consumed in order and
    the first exception propagates. *)
Fixpoint tuple_of {A B} (f : A → result B) (keys : list A) : result (list B) :=
  match keys with
  | [] => Returns []
  | key :: keys' => x ← f key; t ← tuple_of f keys'; Returns (x :: t)
  end.

Definition key_extractor (dic : rule) : result (list string) :=
  tuple_of (lower_field dic) key_fields.

Definition default_key : list string :=
  ["allow"; "any"; "any"; "any"; "any"; "any"].

(** First loop of [combine_lists]: existing rules are kept, the default rule
    is skipped.  [combined_list] and [seen] are the two mutable locals. *)
Fixpoint keep_existing (existing_rules : list rule)
    (combined_list : list rule) (seen : gset (list string))
  : result (list rule * gset (list string)) :=
  match existing_rules with
  | [] => Returns (combined_list, seen)
  | rule :: rest =>
      key_tuple ← key_extractor rule;
      if decide (key_tuple = default_key)
      then keep_existing rest combined_list seen
      else keep_existing rest (combined_list ++ [rule]) ({[key_tuple]} ∪ seen)
  end.

(** Second loop: a new rule is added when its key has not been seen. *)
Fixpoint add_new (new_rules : list rule)
    (combined_list : list rule) (seen : gset (list string))
  : result (list rule) :=
  match new_rules with
  | [] => Returns combined_list
  | rule :: rest =>
      key_tuple ← key_extractor rule;
      if decide (key_tuple ∈ seen)
      then add_new rest combined_list seen
      else add_new rest (combined_list ++ [rule]) ({[key_tuple]} ∪ seen)
  end.

Definition combine_lists (existing_rules new_rules : list rule)
  : result (list rule) :=
  '(combined_list, seen) ← keep_existing existing_rules [] ∅;
  add_new new_rules combined_list seen.

(** A rule record built from its six key fields. *)
Definition mk_rule (policy protocol srcCidr destCidr srcPort destPort : string)
  : rule :=
  {[ "policy" := VStr policy; "protocol" := VStr protocol;
     "srcCidr" := VStr srcCidr; "destCidr" := VStr destCidr;
     "srcPort" := VStr srcPort; "destPort" := VStr destPort ]}.

(** ** The dashboard SDK

    The SDK is an external collaborator: each call either returns a payload,
    raises [meraki.APIError] (with a status and a message), or raises some
    other exception.  The JSON payloads are modelled by records holding the
    members the program reads; identifiers and names issued by the
    dashboard are strings. *)

Inductive sdk_result (A : Type) : Type :=
  | Success (response : A)
  | APIError (status : option string) (msg : string)
  | SDKError (msg : string).
Arguments Success {A} response.
Arguments APIError {A} status msg.
Arguments SDKError {A} msg.

(** A policy object or policy object group as the dashboard reports it. *)
Record entity : Type := { entity_name : string; entity_id : string }.

Record network : Type :=
  { net_id : string; net_name : string; productTypes : list string }.

(** A keyword argument of a creation call: a CSV cell, or the [groupIds]
    list the driver adds. *)
Inductive arg : Type :=
  | Cell (v : value)
  | Ids (ids : list string).

Abbreviation payload := (gmap string arg).

#[global] Instance entity_eq_dec : EqDecision entity.
Proof. solve_decision. Defined.
#[global] Instance network_eq_dec : EqDecision network.
Proof. solve_decision. Defined.
#[global] Instance arg_eq_dec : EqDecision arg.
Proof. solve_decision. Defined.

Class Dashboard (R : Type) : Type := {
  getOrganizationPolicyObjects : R → sdk_result (list entity) * R;
  getOrganizationPolicyObjectsGroups : R → sdk_result (list entity) * R;
  getOrganizationNetworks : R → sdk_result (list network) * R;
  createOrganizationPolicyObject : payload → R → sdk_result entity * R;
  createOrganizationPolicyObjectsGroup : payload → R → sdk_result entity * R;
  (** the [rules] member of the response *)
  getNetworkApplianceFirewallL3FirewallRules :
    string → R → sdk_result (list rule) * R;
  updateNetworkApplianceFirewallL3FirewallRules :
    string → list rule → R → sdk_result (list rule) * R
}.

(** What a wrapper of [MERAKI_API] returns: [(None, response)] or
    [(status, str(e))]. *)
Inductive reply (A : Type) : Type :=
  | Payload (response : A)
  | Message (text : string).
Arguments Payload {A} response.
Arguments Message {A} text.

#[global] Instance reply_eq_dec `{EqDecision A} : EqDecision (reply A).
Proof. solve_decision. Defined.

(** [if error:] on a value of type [str | None]. *)
Definition truthy (error : option string) : bool :=
  match error with
  | None => false
  | Some code => negb (bool_decide (code = ""))
  end.

(** ** Observable history of a run: SDK calls, console lines, the prompt

    The logger [lm] of [logger.logrr] is taken to write to the console and
    return; each of its calls in [main.py] is one [line], carrying the
    values the message is formatted from. *)

Inductive call : Type :=
  | ListPolicyObjects
  | ListPolicyObjectGroups
  | ListNetworks
  | CreatePolicyObject (config : payload)
  | CreatePolicyObjectGroup (config : payload)
  | GetRules (network_id : string)
  | UpdateRules (network_id : string) (rules : list rule).

Inductive line : Type :=
  | StartPanel
  | ConfigTable
  | StepPanel (title : string)
  | ReadPolicyObjects (count : nat)
  | PolicyObjectFileNotFound
  | ErrorCreatingGroup (name : value) (error : option string)
      (response : reply entity)
  | CreatedGroup (response : reply entity)
  | ErrorCreatingObject (name : arg) (error : option string)
      (response : reply entity)
  | CreatedObject (response : reply entity)
  | ReadRules (count : nat)
  | RulesFileNotFound
  | ErrorGettingNetworks (error : option string)
      (response : reply (list network))
  | FoundNetworks (names : list string)
  | ErrorGettingRules (name : string) (error : option string)
      (response : reply (list rule))
  | ErrorApplyingRules (name : string) (error : option string)
      (response : reply (list rule))
  | AppliedRules (name : string) (response : reply (list rule)).

Inductive event : Type :=
  | Called (c : call) (returned : bool)
  | Printed (l : line)
  | Asked.

#[global] Instance call_eq_dec : EqDecision call.
Proof. solve_decision. Defined.
#[global] Instance line_eq_dec : EqDecision line.
Proof. solve_decision. Defined.
#[global] Instance event_eq_dec : EqDecision event.
Proof. solve_decision. Defined.

(** [config.config.c]: the part the program reads. *)
Record config : Type := { NETWORK_NAMES : list string }.

(** What the run reads from its surroundings: the two CSV files ([None] when
    opening raises [FileNotFoundError]) and the answer to the prompt. *)
Record inputs : Type := {
  policy_objects_csv : option (list row);
  l3_outbound_rules_csv : option (list rule);
  overwrite_answer : bool
}.

(** ** The token translator *)

Definition translate_cidr_to_objects
    (policy_objects_name_to_id policy_group_objects_name_to_id : gmap value string)
    (cidr : value) : value :=
  match policy_objects_name_to_id !! cidr with
  | Some obj_id => VStr ("OBJ(" +:+ obj_id +:+ ")")
  | None =>
      match policy_group_objects_name_to_id !! cidr with
      | Some obj_id => VStr ("GRP(" +:+ obj_id +:+ ")")
      | None => cidr
      end
  end.

(** The name to id mapping built from a catalog listing. *)
Definition name_to_id (catalog : list entity) : gmap value string :=
  foldl (λ mapping e, <[VStr (entity_name e) := entity_id e]> mapping) ∅ catalog.

Section Driver.
Context {R : Type} `{!Dashboard R}.

(** The state a run threads: the dashboard, the two mappings of the
    [MERAKI_API] singleton, and the history so far. *)
Record world : Type := {
  remote : R;
  policy_objects_name_to_id : gmap value string;
  policy_group_objects_name_to_id : gmap value string;
  history : list event
}.

Definition run (A : Type) : Type := world → result A * world.

#[global] Instance run_ret : MRet run := λ A a w, (Returns a, w).
#[global] Instance run_bind : MBind run := λ A B f m w,
  match m w with
  | (Returns a, w') => f a w'
  | (Raises e, w') => (Raises e, w')
  end.

Definition raise {A} (e : exn) : run A := λ w, (Raises e, w).
Definition get_world : run world := λ w, (Returns w, w).

Definition record (e : event) (w : world) : world :=
  {| remote := remote w;
     policy_objects_name_to_id := policy_objects_name_to_id w;
     policy_group_objects_name_to_id := policy_group_objects_name_to_id w;
     history := history w ++ [e] |}.

Definition print (l : line) : run unit := λ w, (Returns (), record (Printed l) w).

(** One SDK call: the dashboard moves on and the call is recorded. *)
Definition sdk {A} (c : call) (op : R → sdk_result A * R) : run (sdk_result A) :=
  λ w,
    let '(r, remote') := op (remote w) in
    (Returns r,
     record (Called c (if r is Success _ then true else false))
       {| remote := remote';
          policy_objects_name_to_id := policy_objects_name_to_id w;
          policy_group_objects_name_to_id := policy_group_objects_name_to_id w;
          history := history w |}).

Definition register_object (name : value) (id : string) : run unit := λ w,
  (Returns (),
   {| remote := remote w;
      policy_objects_name_to_id := <[name := id]> (policy_objects_name_to_id w);
      policy_group_objects_name_to_id := policy_group_objects_name_to_id w;
      history := history w |}).

Definition register_group (name : value) (id : string) : run unit := λ w,
  (Returns (),
   {| remote := remote w;
      policy_objects_name_to_id := policy_objects_name_to_id w;
      policy_group_objects_name_to_id :=
        <[name := id]> (policy_group_objects_name_to_id w);
      history := history w |}).

Definition set_mappings (objects groups : gmap value string) : run unit := λ w,
  (Returns (),
   {| remote := remote w;
      policy_objects_name_to_id := objects;
      policy_group_objects_name_to_id := groups;
      history := history w |}).

(** *** [meraki_api.py] *)

(** [MERAKI_API.__init__]: the SDK calls are not guarded, so a failing
    listing propagates. *)
Definition MERAKI_API_init : run unit :=
  r ← sdk ListPolicyObjects getOrganizationPolicyObjects;
  match r with
  | Success policy_objects =>
      r' ← sdk ListPolicyObjectGroups getOrganizationPolicyObjectsGroups;
      match r' with
      | Success policy_object_groups =>
          set_mappings (name_to_id policy_objects)
                       (name_to_id policy_object_groups)
      | APIError _ msg | SDKError msg => raise (DashboardError msg)
      end
  | APIError _ msg | SDKError msg => raise (DashboardError msg)
  end.

Definition get_org_appliance_networks (c : config)
  : run (option string * reply (list network)) :=
  r ← sdk ListNetworks getOrganizationNetworks;
  match r with
  | Success response =>
      let appliance_networks :=
        if bool_decide (0 < length (NETWORK_NAMES c))
        then filter (λ network, "appliance" ∈ productTypes network
                                ∧ net_name network ∈ NETWORK_NAMES c) response
        else filter (λ network, "appliance" ∈ productTypes network) response in
      mret (None, Payload appliance_networks)
  | APIError status msg => mret (status, Message msg)
  | SDKError msg => mret (Some "500", Message msg)
  end.

(** The subscript [config['name']] is inside the [try]: a missing name, or
    one that cannot be a dict key, is reported as an SDK error. *)
Definition create_policy_objects (policy_object_config : payload)
  : run (option string * reply entity) :=
  r ← sdk (CreatePolicyObject policy_object_config)
          (createOrganizationPolicyObject policy_object_config);
  match r with
  | Success response =>
      match policy_object_config !! "name" with
      | Some (Cell name) =>
          register_object name (entity_id response);;
          mret (None, Payload response)
      | Some (Ids _) => mret (Some "500", Message "unhashable type: 'list'")
      | None => mret (Some "500", Message "'name'")
      end
  | APIError status msg => mret (status, Message msg)
  | SDKError msg => mret (Some "500", Message msg)
  end.

Definition create_policy_object_groups (policy_object_group_config : payload)
  : run (option string * reply entity) :=
  r ← sdk (CreatePolicyObjectGroup policy_object_group_config)
          (createOrganizationPolicyObjectsGroup policy_object_group_config);
  match r with
  | Success response =>
      match policy_object_group_config !! "name" with
      | Some (Cell name) =>
          register_group name (entity_id response);;
          mret (None, Payload response)
      | Some (Ids _) => mret (Some "500", Message "unhashable type: 'list'")
      | None => mret (Some "500", Message "'name'")
      end
  | APIError status msg => mret (status, Message msg)
  | SDKError msg => mret (Some "500", Message msg)
  end.

Definition get_l3_outbound_rules (network_id : string)
  : run (option string * reply (list rule)) :=
  r ← sdk (GetRules network_id)
          (getNetworkApplianceFirewallL3FirewallRules network_id);
  match r with
  | Success response => mret (None, Payload response)
  | APIError status msg => mret (status, Message msg)
  | SDKError msg => mret (Some "500", Message msg)
  end.

Definition update_l3_outbound_rules (network_id : string) (l3_rules_list : list rule)
  : run (option string * reply (list rule)) :=
  r ← sdk (UpdateRules network_id l3_rules_list)
          (updateNetworkApplianceFirewallL3FirewallRules network_id l3_rules_list);
  match r with
  | Success response => mret (None, Payload response)
  | APIError status msg => mret (status, Message msg)
  | SDKError msg => mret (Some "500", Message msg)
  end.

(** *** [main.py]: the provisioning driver *)

Definition translate (cidr : value) : run value :=
  w ← get_world;
  mret (translate_cidr_to_objects (policy_objects_name_to_id w)
          (policy_group_objects_name_to_id w) cidr).

(** [for x in xs: body(x)] *)
Fixpoint for_each {A} (body : A → run unit) (xs : list A) : run unit :=
  match xs with
  | [] => mret ()
  | x :: xs' => body x;; for_each body xs'
  end.

(** Lines 129-134: create the policy object and report the outcome. *)
Definition create_and_report (policy_object : payload) : run unit :=
  '(error, response) ← create_policy_objects policy_object;
  if truthy error then
    match policy_object !! "name" with
    | Some name => print (ErrorCreatingObject name error response)
    | None => raise (KeyError (VStr "name"))
    end
  else print (CreatedObject response).

(** Lines 111-121: create the group unless its name is already mapped;
    [false] stands for the [continue] after a failed creation. *)
Definition ensure_group (group_name : value) : run bool :=
  w ← get_world;
  if decide (is_Some (policy_group_objects_name_to_id w !! group_name))
  then mret true
  else
    let group_payload : payload :=
      {[ "name" := Cell group_name;
         "category" := Cell (VStr "NetworkObjectGroup") ]} in
    '(error, response) ← create_policy_object_groups group_payload;
    if truthy error then
      print (ErrorCreatingGroup group_name error response);; mret false
    else
      print (CreatedGroup response);; mret true.

(** One iteration of the loop of step 1 (lines 107-134). *)
Definition provision (policy_object : row) : run unit :=
  match policy_object !! "_group_name" with
  | Some group_name =>
      if decide (group_name ≠ VStr "") then
        proceed ← ensure_group group_name;
        if proceed : bool then
          w ← get_world;
          match policy_group_objects_name_to_id w !! group_name with
          | Some group_id =>
              create_and_report
                (<["groupIds" := Ids [group_id]]>
                   (delete "_group_name" (Cell <$> policy_object)))
          | None => raise (KeyError group_name)
          end
        else mret ()
      else create_and_report (Cell <$> policy_object)
  | None => create_and_report (Cell <$> policy_object)
  end.

(** One iteration of the translation loop (lines 147-150). *)
Definition translate_rule (rule : row) : run row :=
  match rule !! "srcCidr" with
  | None => raise (KeyError (VStr "srcCidr"))
  | Some src =>
      src' ← translate src;
      let rule := <["srcCidr" := src']> rule in
      match rule !! "destCidr" with
      | None => raise (KeyError (VStr "destCidr"))
      | Some dest =>
          dest' ← translate dest;
          mret (<["destCidr" := dest']> rule)
      end
  end.

Fixpoint translate_rules (l3_rules : list rule) : run (list rule) :=
  match l3_rules with
  | [] => mret []
  | rule :: rest =>
      rule' ← translate_rule rule;
      rest' ← translate_rules rest;
      mret (rule' :: rest')
  end.

Definition subscript_str {A} : run A :=
  raise (TypeError "string indices must be integers, not 'str'").

(** [[net['name'] for net in response]], evaluated when [error] is falsy;
    [response] is then the list of networks, or the message of an
    [APIError] whose status is falsy. *)
Definition network_names (response : reply (list network)) : run (list string) :=
  match response with
  | Payload networks => mret (net_name <$> networks)
  | Message "" => mret []
  | Message _ => subscript_str
  end.

(** What [for network in response] iterates over: the networks, or the
    characters of the message. *)
Definition iterate (response : reply (list network)) : list (network + ascii) :=
  match response with
  | Payload networks => inl <$> networks
  | Message text => inr <$> list_ascii_of_string text
  end.

(** Lines 179-183. *)
Definition push (network : network) (l3_rules : list rule) : run unit :=
  '(error, response) ← update_l3_outbound_rules (net_id network) l3_rules;
  if truthy error
  then print (ErrorApplyingRules (net_name network) error response)
  else print (AppliedRules (net_name network) response).

(** One iteration of the loop of step 2 (lines 165-183), returning the
    value of the local [l3_rules] at the end of the iteration. *)
Definition apply_rules (overwrite : bool) (item : network + ascii)
    (l3_rules : list rule) : run (list rule) :=
  match item with
  | inr _ => subscript_str
  | inl network =>
      if overwrite then push network l3_rules;; mret l3_rules
      else
        '(error, response) ← get_l3_outbound_rules (net_id network);
        if truthy error then
          print (ErrorGettingRules (net_name network) error response);;
          mret l3_rules
        else
          match response with
          | Message _ => subscript_str
          | Payload existing_rules =>
              match combine_lists existing_rules l3_rules with
              | Raises e => raise e
              | Returns l3_rules =>
                  push network l3_rules;; mret l3_rules
              end
          end
  end.

Fixpoint for_each_network (overwrite : bool) (items : list (network + ascii))
    (l3_rules : list rule) : run unit :=
  match items with
  | [] => mret ()
  | item :: rest =>
      l3_rules ← apply_rules overwrite item l3_rules;
      for_each_network overwrite rest l3_rules
  end.

Definition ask (answer : bool) : run bool := λ w, (Returns answer, record Asked w).

(** Step 2 (lines 146-183), once the rule table has been read.  The pause
    [time.sleep(1)] before the question leaves no trace. *)
Definition apply_l3_rules (c : config) (answer : bool) (l3_rules : list rule)
  : run unit :=
  l3_rules ← translate_rules l3_rules;
  print (StepPanel "Step 2");;
  '(error, response) ← get_org_appliance_networks c;
  (if truthy error then print (ErrorGettingNetworks error response)
   else names ← network_names response; print (FoundNetworks names));;
  overwrite ← ask answer;
  for_each_network overwrite (iterate response) l3_rules.

Definition main (c : config) (i : inputs) : run unit :=
  print StartPanel;;
  print ConfigTable;;
  match policy_objects_csv i with
  | None => print PolicyObjectFileNotFound
  | Some policy_objects =>
      print (ReadPolicyObjects (length policy_objects));;
      print (StepPanel "Step 1");;
      for_each provision policy_objects;;
      match l3_outbound_rules_csv i with
      | None => print RulesFileNotFound
      | Some l3_rules =>
          print (ReadRules (length l3_rules));;
          apply_l3_rules c (overwrite_answer i) l3_rules
      end
  end.

(** Running the script: importing [meraki_api] builds the singleton, then
    [main()] runs. *)
Definition program (c : config) (i : inputs) : run unit :=
  MERAKI_API_init;; main c i.

End Driver.

Arguments world R : clear implicits.
Arguments run R A : clear implicits.

(** ** A scripted dashboard

    A dashboard whose answers are fixed in advance, used to run the program
    on concrete inputs. *)

Record script : Type := {
  catalog_objects : sdk_result (list entity);
  catalog_groups : sdk_result (list entity);
  networks : sdk_result (list network);
  on_create_object : payload → sdk_result entity;
  on_create_group : payload → sdk_result entity;
  on_get_rules : string → sdk_result (list rule);
  on_update_rules : string → list rule → sdk_result (list rule)
}.

#[global] Instance script_dashboard : Dashboard script := {|
  getOrganizationPolicyObjects s := (catalog_objects s, s);
  getOrganizationPolicyObjectsGroups s := (catalog_groups s, s);
  getOrganizationNetworks s := (networks s, s);
  createOrganizationPolicyObject cfg s := (on_create_object s cfg, s);
  createOrganizationPolicyObjectsGroup cfg s := (on_create_group s cfg, s);
  getNetworkApplianceFirewallL3FirewallRules id s := (on_get_rules s id, s);
  updateNetworkApplianceFirewallL3FirewallRules id rules s :=
    (on_update_rules s id rules, s)
|}.

(** The world in which [main] starts when the catalog is empty. *)
Definition start (s : script) : world script :=
  {| remote := s;
     policy_objects_name_to_id := ∅;
     policy_group_objects_name_to_id := ∅;
     history := [] |}.

(** A dashboard that accepts every call; a created entity gets the
    identifier ["1"]. *)
Definition accepting (nets : list network) (rules_of : string → list rule)
  : script :=
  {| catalog_objects := Success [];
     catalog_groups := Success [];
     networks := Success nets;
     on_create_object cfg :=
       Success {| entity_name := default "" (cfg !! "name" ≫= λ a,
                    if a is Cell v then Some (py_str v) else None);
                  entity_id := "1" |};
     on_create_group cfg :=
       Success {| entity_name := default "" (cfg !! "name" ≫= λ a,
                    if a is Cell v then Some (py_str v) else None);
                  entity_id := "1" |};
     on_get_rules id := Success (rules_of id);
     on_update_rules id rules := Success rules |}.

(** The rule updates of a history, in order. *)
Definition pushes (h : list event) : list (string * list rule) :=
  omap (λ e, if e is Called (UpdateRules id rules) _ then Some (id, rules) else None) h.

(** The SDK calls of a history, in order. *)
Definition calls (h : list event) : list call :=
  omap (λ e, if e is Called c _ then Some c else None) h.

(** The calls that change the dashboard. *)
Definition is_mutation (c : call) : bool :=
  match c with
  | CreatePolicyObject _ | CreatePolicyObjectGroup _ | UpdateRules _ _ => true
  | _ => false
  end.

(** *** Vocabulary of the merge properties *)

(** The rule carries the six key fields as strings. *)
Definition well_keyed (r : rule) : Prop :=
  ∀ f, f ∈ key_fields → ∃ s, r !! f = Some (VStr s).

(** The string is ASCII text: every byte is below 128. *)
Definition is_ascii (s : string) : Prop :=
  Forall (λ c, (nat_of_ascii c < 128)%nat) (list_ascii_of_string s).

(** The rule carries the six key fields as ASCII strings. *)
Definition ascii_keyed (r : rule) : Prop :=
  ∀ f, f ∈ key_fields → ∃ s, r !! f = Some (VStr s) ∧ is_ascii s.

(** The rule's key is the key of the implicit default rule. *)
Definition is_default (r : rule) : Prop :=
  key_extractor r = Returns default_key.

#[global] Instance is_default_dec r : Decision (is_default r).
Proof. unfold is_default. apply _. Defined.

(** The existing rules that are carried forward. *)
Definition kept_existing (existing_rules : list rule) : list rule :=
  filter (λ r, ¬ is_default r) existing_rules.

(** No two positions of the list hold rules with equal keys. *)
Definition distinct_keys (l : list rule) : Prop :=
  ∀ i j r1 r2, l !! i = Some r1 → l !! j = Some r2 →
    key_extractor r1 = key_extractor r2 → i = j.

(** Two strings that differ at most in the case of ASCII letters: at each
    position the two bytes are equal, or one is a capital letter [A] to [Z]
    (65..90) and the other the small letter 32 places further on. *)
Definition capital_of (a b : ascii) : Prop :=
  (65 ≤ nat_of_ascii a ≤ 90)%nat ∧ nat_of_ascii b = (nat_of_ascii a + 32)%nat.

Definition caseless_char (a b : ascii) : Prop :=
  a = b ∨ capital_of a b ∨ capital_of b a.

Fixpoint caseless (s t : string) : Prop :=
  match s, t with
  | EmptyString, EmptyString => True
  | String a s', String b t' => caseless_char a b ∧ caseless s' t'
  | _, _ => False
  end.

(** *** Vocabulary of the driver properties *)

Abbreviation mapping := (gmap value string).

(** Calls of step 2: listing the networks, reading and writing rules. *)
Definition touches_rules (e : event) : bool :=
  match e with
  | Called (ListNetworks | GetRules _ | UpdateRules _ _) _ => true
  | _ => false
  end.

(** A call creating the group named [n], with whether the SDK returned. *)
Definition group_call (n : value) (e : event) : option bool :=
  match e with
  | Called (CreatePolicyObjectGroup cfg) returned =>
      if decide (cfg !! "name" = Some (Cell n)) then Some returned else None
  | _ => None
  end.

Definition group_calls (n : value) (evs : list event) : list bool :=
  omap (group_call n) evs.

(** An object creation that names groups names one identifier, and that
    identifier is held by the group mapping. *)
Definition reuses (groups : mapping) (e : event) : Prop :=
  ∀ cfg returned ids,
    e = Called (CreatePolicyObject cfg) returned →
    cfg !! "groupIds" = Some (Ids ids) →
    ∃ n gid, ids = [gid] ∧ groups !! n = Some gid.

(** Events that are no group creation and whose object creations reuse
    identifiers of [groups]. *)
Definition settled (groups : mapping) (e : event) : Prop :=
  (∀ n, group_call n e = None) ∧ reuses groups e.

(** No entry of either mapping is removed. *)
Definition grows : relation (mapping * mapping) :=
  λ a b, (∀ n, is_Some (a.1 !! n) → is_Some (b.1 !! n))
         ∧ (∀ n, is_Some (a.2 !! n) → is_Some (b.2 !! n)).

(** The group mapping is untouched. *)
Definition same_groups : relation (mapping * mapping) := λ a b, a.2 = b.2.

(** No constraint on the mappings. *)
Definition any_mappings : relation (mapping * mapping) := λ _ _, True.

Section Relations.
Context {R : Type} `{!Dashboard R}.
Implicit Types w : world R.

Definition mappings w : mapping * mapping :=
  (policy_objects_name_to_id w, policy_group_objects_name_to_id w).

(** Every world a computation can end in, by returning or by raising, is
    related to the one it started from. *)
Definition preserves (Rel : relation (world R)) {A} (m : run R A) : Prop :=
  ∀ w, Rel w (m w).2.

(** The history grew by events that satisfy [Q], and the two mappings
    moved along [S]. *)
Definition keeps (Q : event → Prop) (S : relation (mapping * mapping))
  : relation (world R) :=
  λ w w', ∃ evs, history w' = history w ++ evs ∧ Forall Q evs
                 ∧ S (mappings w) (mappings w').

(** How step 1 treats groups: entries of the group mapping are never
    changed; no creation call is made for a name that is mapped; the
    creation calls for a name are failures followed by at most one
    success, which maps the name; object creations reuse mapped
    identifiers. *)
Definition orderly : relation (world R) :=
  λ w w', ∃ evs,
    history w' = history w ++ evs
    ∧ policy_group_objects_name_to_id w ⊆ policy_group_objects_name_to_id w'
    ∧ (∀ n, is_Some (policy_group_objects_name_to_id w !! n) →
            group_calls n evs = [])
    ∧ (∀ n, ∃ k,
          group_calls n evs = replicate k false
          ∨ (group_calls n evs = replicate k false ++ [true]
             ∧ is_Some (policy_group_objects_name_to_id w' !! n)))
    ∧ Forall (reuses (policy_group_objects_name_to_id w')) evs.
End Relations.

(** *** Concrete scenarios *)

Definition no_filter : config := {| NETWORK_NAMES := [] |}.

Definition branch_1 : network :=
  {| net_id := "N_1"; net_name := "Branch 1"; productTypes := ["appliance"] |}.
Definition branch_2 : network :=
  {| net_id := "N_2"; net_name := "Branch 2";
     productTypes := ["appliance"; "switch"] |}.

Definition deny_ssh : rule := mk_rule "deny" "tcp" "any" "10.1.0.0/16" "any" "22".
Definition deny_dns : rule := mk_rule "deny" "udp" "any" "10.2.0.0/16" "any" "53".
Definition allow_https : rule := mk_rule "allow" "tcp" "any" "10.0.0.0/8" "any" "443".
Definition allow_any : rule := mk_rule "Allow" "Any" "any" "any" "any" "any".

(** Two existing rules whose keys differ in letter case only. *)
Definition deny_ssh_twice : list rule :=
  [deny_ssh;
   <["comment" := VStr "again"]> (mk_rule "DENY" "TCP" "Any" "10.1.0.0/16" "any" "22")].

(** Two networks, each with one rule of its own. *)
Definition two_branches : script :=
  accepting [branch_1; branch_2]
    (λ id, if decide (id = "N_1") then [deny_ssh] else [deny_dns]).

Definition merge_one_rule : inputs :=
  {| policy_objects_csv := Some [];
     l3_outbound_rules_csv := Some [allow_https];
     overwrite_answer := false |}.

(** The dashboard refuses to list the networks. *)
Definition listing_refused : script :=
  {| catalog_objects := Success [];
     catalog_groups := Success [];
     networks := APIError (Some "404") "404 Not Found";
     on_create_object := on_create_object two_branches;
     on_create_group := on_create_group two_branches;
     on_get_rules := on_get_rules two_branches;
     on_update_rules := on_update_rules two_branches |}.

(** The dashboard refuses every group creation. *)
Definition groups_refused : script :=
  {| catalog_objects := Success [];
     catalog_groups := Success [];
     networks := Success [];
     on_create_object := on_create_object two_branches;
     on_create_group := λ _, APIError (Some "400") "400 Bad Request";
     on_get_rules := on_get_rules two_branches;
     on_update_rules := on_update_rules two_branches |}.

(** The catalog already holds the group [Servers]. *)
Definition servers_exist : script :=
  {| catalog_objects := Success [];
     catalog_groups := Success [{| entity_name := "Servers"; entity_id := "7" |}];
     networks := Success [];
     on_create_object := on_create_object two_branches;
     on_create_group := on_create_group two_branches;
     on_get_rules := on_get_rules two_branches;
     on_update_rules := on_update_rules two_branches |}.

Definition web_server : row :=
  {[ "name" := VStr "Web-Server"; "category" := VStr "network";
     "type" := VStr "cidr"; "cidr" := VStr "10.1.1.0/24" ]}.

Definition server (name cidr : string) : row :=
  {[ "name" := VStr name; "category" := VStr "network";
     "type" := VStr "cidr"; "cidr" := VStr cidr;
     "_group_name" := VStr "Servers" ]}.

(** The object table is there, the rule table is not. *)
Definition rules_missing : inputs :=
  {| policy_objects_csv := Some [web_server];
     l3_outbound_rules_csv := None;
     overwrite_answer := false |}.

Definition two_servers : inputs :=
  {| policy_objects_csv := Some [server "A" "10.1.1.1/32"; server "B" "10.1.1.2/32"];
     l3_outbound_rules_csv := Some [];
     overwrite_answer := true |}.

(** *** Vocabulary of the further properties *)

(** Every rule of [table] has a rule with the same key in [rules]. *)
Definition covers (table rules : list rule) : Prop :=
  ∀ r, r ∈ table → ∃ r', r' ∈ rules ∧ key_extractor r' = key_extractor r.

(** The rule has both address fields. *)
Definition with_cidrs (rule : row) : Prop :=
  is_Some (rule !! "srcCidr") ∧ is_Some (rule !! "destCidr").

(** [rule'] is [rule] with its two address fields translated and every
    other field as it was. *)
Definition translation_of (objects groups : mapping) (rule rule' : row) : Prop :=
  rule' !! "srcCidr" = translate_cidr_to_objects objects groups <$> rule !! "srcCidr"
  ∧ rule' !! "destCidr"
    = translate_cidr_to_objects objects groups <$> rule !! "destCidr"
  ∧ ∀ key, key ≠ "srcCidr" → key ≠ "destCidr" → rule' !! key = rule !! key.

(** The message of the exception an SDK call raised, if it raised. *)
Definition failure_message {A} (r : sdk_result A) : option string :=
  match r with
  | Success _ => None
  | APIError _ msg | SDKError msg => Some msg
  end.

Section Reports.
Context {R : Type} `{!Dashboard R}.

(** What a wrapper leaves behind: it returns a pair, has recorded one call,
    answers a payload only together with the error [None] and only when the
    SDK returned, and answers a message when the SDK raised. *)
Definition reports {A} (c : call) (w : world R)
    (res : result (option string * reply A) * world R) : Prop :=
  ∃ error response returned,
    res.1 = Returns (error, response)
    ∧ history res.2 = history w ++ [Called c returned]
    ∧ (returned = false →
       (∃ text, response = Message text) ∧ mappings res.2 = mappings w)
    ∧ (∀ payload, response = Payload payload → error = None ∧ returned = true).
End Reports.

(** Calls of step 1. *)
Definition is_creation (c : call) : bool :=
  match c with
  | CreatePolicyObject _ | CreatePolicyObjectGroup _ => true
  | _ => false
  end.

(** Calls of the loop over the networks. *)
Definition is_rule_call (c : call) : bool :=
  match c with
  | GetRules _ | UpdateRules _ _ => true
  | _ => false
  end.

Section Emits.
Context {R : Type} `{!Dashboard R}.

(** The SDK calls made between two worlds satisfy [L]. *)
Definition emits (L : list call → Prop) : relation (world R) :=
  λ w w', ∃ cs, calls (history w') = calls (history w) ++ cs ∧ L cs.
End Emits.

Section Shapes.
Context {R : Type} `{!Dashboard R}.

(** Events whose SDK calls all satisfy [P]. *)
Definition calling (P : call → Prop) (e : event) : Prop :=
  ∀ c returned, e = Called c returned → P c.

(** A computation that makes no SDK call. *)
Definition silent {A} (m : run R A) : Prop := ∀ w, emits (λ cs, cs = []) w (m w).2.

(** The shape of the calls of step 2. *)
Definition step2_calls (cs : list call) : Prop :=
  cs = [] ∨ ∃ rest, cs = ListNetworks :: rest ∧ Forall is_rule_call rest.
End Shapes.

(** *** Further scenarios *)

(** Only the second branch is selected. *)
Definition only_branch_2 : config := {| NETWORK_NAMES := ["Branch 2"] |}.

(** A rule record without its [destPort] field. *)
Definition no_dest_port : rule := delete "destPort" deny_ssh.

(** Every network holds a rule without [destPort]. *)
Definition damaged_rules : script :=
  accepting [branch_1; branch_2] (λ _, [no_dest_port]).

(** A catalog that lists the name [Servers] twice. *)
Definition servers_twice : list entity :=
  [{| entity_name := "Servers"; entity_id := "7" |};
   {| entity_name := "Web-Server"; entity_id := "3" |};
   {| entity_name := "Servers"; entity_id := "9" |}].

(** An object row without a [name] column. *)
Definition nameless : payload := Cell <$> delete "name" web_server.

(** A dashboard without state: its catalog is empty, every network holds
    the rule [deny_ssh], and every call is accepted. *)
Inductive steady : Type := Steady.

#[global] Instance steady_dashboard : Dashboard steady := {|
  getOrganizationPolicyObjects s := (Success [], s);
  getOrganizationPolicyObjectsGroups s := (Success [], s);
  getOrganizationNetworks s := (Success [branch_1; branch_2], s);
  createOrganizationPolicyObject cfg s := (on_create_object two_branches cfg, s);
  createOrganizationPolicyObjectsGroup cfg s := (on_create_group two_branches cfg, s);
  getNetworkApplianceFirewallL3FirewallRules id s := (Success [deny_ssh], s);
  updateNetworkApplianceFirewallL3FirewallRules id rules s := (Success rules, s)
|}.

(** * Properties *)

(** ** The rule merge engine *)

Lemma bind_Returns {A B} (m : result A) (f : A → result B) b :
  m ≫= f = Returns b ↔ ∃ a, m = Returns a ∧ f a = Returns b.
Proof.
  destruct m as [a|e]; simpl; split.
  - eauto.
  - by intros (a' & [= <-] & ?).
  - done.
  - by intros (? & ? & ?).
Qed.

Lemma tuple_of_Returns {A B} (f : A → result B) keys t :
  tuple_of f keys = Returns t ↔ Forall2 (λ key x, f key = Returns x) keys t.
Proof.
  revert t. induction keys as [|key keys IH]; intros t; simpl.
  - split.
    + intros [= <-]. constructor.
    + by intros ->%Forall2_nil_inv_l.
  - rewrite bind_Returns. split.
    + intros (x & Hx & (t' & Ht' & [= <-])%bind_Returns).
      constructor; [done|]. by apply IH.
    + intros (x & t' & Hx & Ht' & ->)%Forall2_cons_inv_l.
      exists x. split; [done|]. apply bind_Returns. exists t'.
      split; [by apply IH|done].
Qed.

Lemma lower_field_Returns dic key x :
  lower_field dic key = Returns x ↔ ∃ s, dic !! key = Some (VStr s) ∧ x = lower s.
Proof.
  unfold lower_field. destruct (dic !! key) as [[s| |b]|]; split;
    try (intros [= <-]; eauto); try (intros (s' & [= <-] & ->); done);
    try (intros (s' & [=] & _)); try done.
Qed.

Lemma key_extractor_total r :
  well_keyed r ↔ ∃ k, key_extractor r = Returns k.
Proof.
  unfold key_extractor. split.
  - intros Hr.
    assert (∀ keys, (∀ f, f ∈ keys → f ∈ key_fields) →
              ∃ k, tuple_of (lower_field r) keys = Returns k) as Hgen.
    { induction keys as [|key keys IH]; intros Hin; simpl; [eauto|].
      destruct (Hr key) as [s Hs]; [apply Hin; left|].
      destruct IH as [k Hk]; [intros f Hf; apply Hin; by right|].
      exists (lower s :: k). apply bind_Returns. exists (lower s).
      split; [apply lower_field_Returns; eauto|]. by rewrite Hk. }
    by apply Hgen.
  - intros [k Hk] f Hf. apply tuple_of_Returns in Hk.
    apply list_elem_of_lookup in Hf as [i Hi].
    destruct (Forall2_lookup_l _ _ _ _ _ Hk Hi) as (x & _ & Hx).
    apply lower_field_Returns in Hx as (s & Hs & _). eauto.
Qed.

Lemma keep_existing_Returns existing : ∀ combined seen c s,
  keep_existing existing combined seen = Returns (c, s) →
  c = combined ++ kept_existing existing
  ∧ Forall well_keyed existing
  ∧ ∀ k, k ∈ s ↔
      k ∈ seen ∨ ∃ r, r ∈ kept_existing existing ∧ key_extractor r = Returns k.
Proof.
  induction existing as [|r rest IH]; intros combined seen c s; simpl.
  - intros [= <- <-]. rewrite app_nil_r. split_and!; [done|constructor|].
    intros k. split; [by left|]. intros [?|(r & Hr & _)]; [done|].
    by apply elem_of_nil in Hr.
  - intros (k0 & Hk0 & Hrest)%bind_Returns.
    assert (well_keyed r) as Hwk by (apply key_extractor_total; eauto).
    unfold kept_existing. rewrite filter_cons. fold (kept_existing rest).
    destruct (decide (k0 = default_key)) as [->|Hne].
    + rewrite decide_False by (intros Hn; by apply Hn).
      apply IH in Hrest as (-> & Hall & Hs). split_and!; [done|by constructor|done].
    + rewrite decide_True by (unfold is_default; congruence).
      apply IH in Hrest as (-> & Hall & Hs).
      split_and!; [by rewrite <-app_assoc|by constructor|].
      intros k. rewrite Hs, elem_of_union, elem_of_singleton. split.
      * intros [[->|?]|(r' & Hr' & Hk')]; [right|by left|right].
        -- exists r. split; [left|done].
        -- exists r'. split; [by right|done].
      * intros [?|(r' & Hr' & Hk')]; [by left; right|].
        apply elem_of_cons in Hr' as [->|Hr'].
        -- left; left. congruence.
        -- right. eauto.
Qed.

Lemma keep_existing_total existing : ∀ combined seen,
  Forall well_keyed existing →
  ∃ c s, keep_existing existing combined seen = Returns (c, s).
Proof.
  induction existing as [|r rest IH]; intros combined seen Hall; simpl; [eauto|].
  apply Forall_cons in Hall as [[k Hk]%key_extractor_total Hall].
  rewrite Hk. simpl. case_decide; by apply IH.
Qed.

Lemma add_new_Returns new : ∀ combined seen out,
  add_new new combined seen = Returns out →
  ∃ added,
    out = combined ++ added
    ∧ Forall well_keyed new
    ∧ added `sublist_of` new
    ∧ (∀ r k, r ∈ added → key_extractor r = Returns k → k ∉ seen)
    ∧ NoDup (key_extractor <$> added)
    ∧ (∀ i r k, new !! i = Some r → key_extractor r = Returns k → k ∉ seen →
         (∀ j r', j < i → new !! j = Some r' → key_extractor r' ≠ Returns k) →
         r ∈ added).
Proof.
  induction new as [|r rest IH]; intros combined seen out; simpl.
  - intros [= <-]. exists []. rewrite app_nil_r.
    split_and!; [done|constructor|done|by intros ?? ?%elem_of_nil|constructor|].
    by intros i r k Hi; rewrite lookup_nil in Hi.
  - intros (k0 & Hk0 & Hrest)%bind_Returns.
    assert (well_keyed r) as Hwk by (apply key_extractor_total; eauto).
    destruct (decide (k0 ∈ seen)) as [Hin|Hnin].
    + apply IH in Hrest as (added & -> & Hall & Hsub & Hfresh & Hnd & Hsel).
      exists added.
      split_and!; [done|by constructor|by apply sublist_cons|done|done|].
      intros [|i] r' k Hi Hk Hk' Hfirst; simpl in Hi.
      * injection Hi as <-. congruence.
      * apply (Hsel i r' k); [done..|].
        intros j r'' Hj. apply (Hfirst (S j)). lia.
    + apply IH in Hrest as (added & -> & Hall & Hsub & Hfresh & Hnd & Hsel).
      exists (r :: added).
      split_and!; [by rewrite <-app_assoc|by constructor|by apply sublist_skip| | |].
      * intros r' k [->|Hr']%elem_of_cons Hk; [congruence|].
        specialize (Hfresh r' k Hr' Hk). intros Hin. apply Hfresh.
        apply elem_of_union. by right.
      * rewrite fmap_cons. apply NoDup_cons. split; [|done].
        intros (r' & Hkr' & Hr')%list_elem_of_fmap.
        rewrite Hk0 in Hkr'. symmetry in Hkr'.
        specialize (Hfresh r' k0 Hr' Hkr'). apply Hfresh.
        apply elem_of_union. left. by apply elem_of_singleton.
      * intros [|i] r' k Hi Hk Hk' Hfirst; simpl in Hi.
        -- injection Hi as <-. left.
        -- right. apply (Hsel i r' k); [done| done | |].
           ++ assert (k ≠ k0) as Hne.
              { intros ->. apply (Hfirst 0 r); [lia|done|done]. }
              intros [?%elem_of_singleton|?]%elem_of_union; done.
           ++ intros j r'' Hj. apply (Hfirst (S j)). lia.
Qed.

Lemma add_new_total new : ∀ combined seen,
  Forall well_keyed new → ∃ out, add_new new combined seen = Returns out.
Proof.
  induction new as [|r rest IH]; intros combined seen Hall; simpl; [eauto|].
  apply Forall_cons in Hall as [[k Hk]%key_extractor_total Hall].
  rewrite Hk. simpl. case_decide; by apply IH.
Qed.

Lemma combine_lists_Returns existing new out :
  combine_lists existing new = Returns out →
  ∃ added,
    out = kept_existing existing ++ added
    ∧ Forall well_keyed existing ∧ Forall well_keyed new
    ∧ added `sublist_of` new
    ∧ (∀ r r', r ∈ added → r' ∈ kept_existing existing →
         key_extractor r ≠ key_extractor r')
    ∧ NoDup (key_extractor <$> added)
    ∧ (∀ i r, new !! i = Some r →
         (∀ r', r' ∈ kept_existing existing → key_extractor r' ≠ key_extractor r) →
         (∀ j r', j < i → new !! j = Some r' → key_extractor r' ≠ key_extractor r) →
         r ∈ added).
Proof.
  unfold combine_lists. intros ([c s] & Hkeep & Hadd)%bind_Returns.
  apply keep_existing_Returns in Hkeep as (-> & Hex & Hs). simpl in *.
  apply add_new_Returns in Hadd as (added & -> & Hnew & Hsub & Hfresh & Hnd & Hsel).
  exists added. split_and!; [done..| | done |].
  - intros r r' Hr Hr' Heq.
    assert (well_keyed r) as [k Hk]%key_extractor_total.
    { eapply Forall_forall; [exact Hnew|]. by eapply sublist_subseteq. }
    apply (Hfresh r k Hr Hk). apply Hs. right. exists r'. split; [done|congruence].
  - intros i r Hi Hkept Hfirst.
    assert (well_keyed r) as [k Hk]%key_extractor_total.
    { eapply Forall_forall; [exact Hnew|]. by eapply list_elem_of_lookup_2. }
    apply (Hsel i r k Hi Hk).
    + rewrite Hs. intros [Hemp|(r' & Hr' & Hk')]; [by apply elem_of_empty in Hemp|].
      apply (Hkept r' Hr'). congruence.
    + intros j r' Hj Hr'. rewrite <-Hk. by apply (Hfirst j).
Qed.

Lemma combine_lists_total existing new :
  Forall well_keyed existing → Forall well_keyed new →
  ∃ out, combine_lists existing new = Returns out.
Proof.
  intros Hex Hnew. unfold combine_lists.
  destruct (keep_existing_total existing [] ∅ Hex) as (c & s & ->). simpl.
  by apply add_new_total.
Qed.

Lemma distinct_keys_NoDup l : distinct_keys l ↔ NoDup (key_extractor <$> l).
Proof.
  rewrite NoDup_alt. unfold distinct_keys. split.
  - intros Hd i j x Hi Hj. rewrite list_lookup_fmap in Hi, Hj.
    destruct (l !! i) as [r1|] eqn:H1; [|done].
    destruct (l !! j) as [r2|] eqn:H2; [|done].
    simpl in *. apply (Hd i j r1 r2 H1 H2). congruence.
  - intros Hn i j r1 r2 H1 H2 Heq.
    apply (Hn i j (key_extractor r1)); rewrite list_lookup_fmap.
    + by rewrite H1.
    + rewrite H2. simpl. by rewrite Heq.
Qed.

Lemma capital_of_lower a b : capital_of a b → lower_char a = b ∧ lower_char b = b.
Proof.
  intros [[Hlo Hhi] Hb]. unfold lower_char, is_upper. rewrite Hb.
  rewrite (proj2 (Nat.leb_le _ _) Hlo), (proj2 (Nat.leb_le _ _) Hhi). simpl.
  rewrite <-Hb, ascii_nat_embedding. split; [done|].
  replace (nat_of_ascii b <=? 90)%nat with false; [by rewrite andb_false_r|].
  symmetry. apply Nat.leb_gt. lia.
Qed.

Lemma caseless_char_lower a b : caseless_char a b → lower_char a = lower_char b.
Proof.
  intros [->|[[Ha Hb]%capital_of_lower|[Hb Ha]%capital_of_lower]];
    [done|congruence..].
Qed.

Lemma ascii_keyed_well_keyed r : ascii_keyed r → well_keyed r.
Proof. intros Hr f (s & Hs & _)%Hr. eauto. Qed.

Lemma caseless_lower s : ∀ t, caseless s t → lower s = lower t.
Proof.
  induction s as [|a s IH]; intros [|b t]; simpl; try done.
  intros [Hab Hst]. by rewrite (caseless_char_lower a b Hab), (IH t Hst).
Qed.

Lemma tuple_of_ext {A B} (f g : A → result B) keys :
  (∀ key, key ∈ keys → f key = g key) → tuple_of f keys = tuple_of g keys.
Proof.
  induction keys as [|key keys IH]; intros Hfg; simpl; [done|].
  rewrite (Hfg key) by left. rewrite IH; [done|].
  intros key' Hkey'. apply Hfg. by right.
Qed.

Lemma key_extractor_caseless r1 r2 :
  (∀ f, f ∈ key_fields →
     ∃ s t, r1 !! f = Some (VStr s) ∧ r2 !! f = Some (VStr t) ∧ caseless s t) →
  key_extractor r1 = key_extractor r2.
Proof.
  intros Hf. apply tuple_of_ext. intros f (s & t & H1 & H2 & Hst)%Hf.
  unfold lower_field. rewrite H1, H2. by rewrite (caseless_lower s t Hst).
Qed.

Lemma kept_existing_not_default existing :
  Forall (λ r, ¬ is_default r) (kept_existing existing).
Proof. apply Forall_forall. by intros r [? _]%list_elem_of_filter. Qed.

(** C1 (as amended).  When every rule of both lists carries the six key
    fields as ASCII strings, the merge returns the existing rules without
    those whose key is the default key, in their order, followed by rules
    of the incoming list in their relative order.  An incoming rule is
    among the appended ones whenever its key is neither the key of a kept
    existing rule nor the key of an earlier incoming rule.  The appended
    rules have pairwise distinct keys, none of which is the key of a kept
    existing rule, so the output has pairwise distinct keys as soon as the
    kept existing rules have.  Two rules whose six fields are ASCII
    strings, equal up to replacing capital letters [A] to [Z] by the
    corresponding small letters, have the same key. *)
Theorem merge_keeps_existing_then_new (existing new : list rule) :
  Forall ascii_keyed existing → Forall ascii_keyed new →
  ∃ added,
    combine_lists existing new = Returns (kept_existing existing ++ added)
    ∧ added `sublist_of` new
    ∧ (∀ i r, new !! i = Some r →
         (∀ r', r' ∈ kept_existing existing → key_extractor r' ≠ key_extractor r) →
         (∀ j r', j < i → new !! j = Some r' → key_extractor r' ≠ key_extractor r) →
         r ∈ added)
    ∧ distinct_keys added
    ∧ (∀ r r', r ∈ added → r' ∈ kept_existing existing →
         key_extractor r ≠ key_extractor r')
    ∧ (distinct_keys (kept_existing existing) →
       distinct_keys (kept_existing existing ++ added))
    ∧ (∀ r1 r2,
         (∀ f, f ∈ key_fields →
            ∃ s t, r1 !! f = Some (VStr s) ∧ r2 !! f = Some (VStr t)
                   ∧ is_ascii s ∧ caseless s t) →
         key_extractor r1 = key_extractor r2).
Proof.
  intros Hex Hnew.
  apply (Forall_impl _ well_keyed) in Hex, Hnew; try apply ascii_keyed_well_keyed.
  destruct (combine_lists_total existing new Hex Hnew) as [out Hout].
  destruct (combine_lists_Returns _ _ _ Hout)
    as (added & -> & _ & _ & Hsub & Hfresh & Hnd & Hsel).
  exists added. split_and!; try done.
  - by apply distinct_keys_NoDup.
  - rewrite !distinct_keys_NoDup, fmap_app. intros Hkept.
    apply NoDup_app. split_and!; [done| |done].
    intros k (r' & -> & Hr')%list_elem_of_fmap (r & Heq & Hr)%list_elem_of_fmap.
    by apply (Hfresh r r').
  - intros r1 r2 Hf. apply key_extractor_caseless.
    intros f (s & t & H1 & H2 & _ & Hst)%Hf. eauto.
Qed.

(** C5 (as amended).  The merge carries no default-key rule over from the
    existing list: its output is the existing list without its default-key
    rules, followed by rules of the incoming list; so a default-key rule
    occurs in the output only if it occurs in the incoming list. *)
Theorem default_rule_only_from_incoming (existing new out : list rule) :
  combine_lists existing new = Returns out →
  (∃ added, out = kept_existing existing ++ added
            ∧ Forall (λ r, ¬ is_default r) (kept_existing existing)
            ∧ added `sublist_of` new)
  ∧ (∀ r, r ∈ out → is_default r → r ∈ new).
Proof.
  intros (added & -> & _ & _ & Hsub & _)%combine_lists_Returns.
  pose proof (kept_existing_not_default existing) as Hkept. split.
  - exists added. by split_and!.
  - intros r [Hr|Hr]%elem_of_app Hd.
    + by destruct (proj1 (Forall_forall _ _) Hkept r Hr).
    + by eapply sublist_subseteq.
Qed.

(** C9.  The merge returns a list exactly when every rule of both lists
    carries the six key fields as strings; a rule without [destPort] makes
    it raise [KeyError], a rule whose [srcPort] is [None] makes it raise
    [AttributeError]. *)
Theorem combine_lists_partial :
  (∀ existing new,
     (∃ out, combine_lists existing new = Returns out)
     ↔ Forall well_keyed existing ∧ Forall well_keyed new)
  ∧ combine_lists []
      [delete "destPort" (mk_rule "deny" "tcp" "any" "10.0.0.0/8" "any" "22")]
    = Raises (KeyError (VStr "destPort"))
  ∧ combine_lists
      [<["srcPort" := VNone]> (mk_rule "deny" "tcp" "any" "10.0.0.0/8" "any" "22")]
      []
    = Raises (AttributeError "lower").
Proof.
  split_and!; [|compute_done..].
  intros existing new. split.
  - intros [out (added & _ & Hex & Hnew & _)%combine_lists_Returns]. done.
  - intros [Hex Hnew]. by apply combine_lists_total.
Qed.

(** C10.  The default rule is skipped in the existing list only: when the
    incoming list holds a rule with the default key, the output of the
    merge holds a default-key rule taken from the incoming list. *)
Theorem default_rule_from_incoming (existing new out : list rule) (r : rule) :
  combine_lists existing new = Returns out →
  r ∈ new → is_default r →
  ∃ r', r' ∈ new ∧ is_default r' ∧ r' ∈ out.
Proof.
  intros (added & -> & _ & _ & Hsub & _ & _ & Hsel)%combine_lists_Returns Hr Hd.
  apply list_elem_of_lookup in Hr as [i Hi].
  revert r Hi Hd. induction (lt_wf i) as [i _ IH]. intros r Hi Hd.
  destruct (decide (Exists is_default (take i new))) as [Hex|Hnex].
  - apply Exists_exists in Hex as (r' & Hr' & Hd').
    apply list_elem_of_lookup in Hr' as [j Hj].
    apply lookup_take_Some in Hj as [Hj Hlt]. by apply (IH j Hlt r').
  - exists r. split_and!; [by eapply list_elem_of_lookup_2|done|].
    apply elem_of_app. right. apply (Hsel i r Hi).
    + intros r' [Hr' _]%list_elem_of_filter Heq. apply Hr'.
      unfold is_default in *. congruence.
    + intros j r' Hlt Hj Heq. apply Hnex, Exists_exists. exists r'. split.
      * apply list_elem_of_lookup. exists j. by apply lookup_take_Some.
      * unfold is_default in *. congruence.
Qed.

(** X1.  Merging with an empty incoming list removes the rules with the
    default key and nothing else. *)
Lemma combine_lists_nil_r existing :
  Forall well_keyed existing →
  combine_lists existing [] = Returns (kept_existing existing).
Proof.
  intros Hex.
  destruct (combine_lists_total existing [] Hex) as [out Hout]; [constructor|].
  destruct (combine_lists_Returns _ _ _ Hout) as (added & -> & _ & _ & Hsub & _).
  apply sublist_nil_r in Hsub as ->. by rewrite app_nil_r in Hout.
Qed.

(** The scenario of the specification: the default rule is dropped, the
    first incoming rule is a duplicate, the second is appended. *)
Example combine_lists_scenario :
  combine_lists
    [mk_rule "allow" "tcp" "any" "10.0.0.0/8" "any" "443";
     mk_rule "allow" "any" "any" "any" "any" "any"]
    [mk_rule "allow" "tcp" "any" "10.0.0.0/8" "any" "443";
     mk_rule "deny" "any" "192.168.0.0/16" "any" "any" "any"]
  = Returns
    [mk_rule "allow" "tcp" "any" "10.0.0.0/8" "any" "443";
     mk_rule "deny" "any" "192.168.0.0/16" "any" "any" "any"].
Proof. compute_done. Qed.

(** ** Runs of the driver *)

Section RelationFacts.
Context {R : Type} `{!Dashboard R}.
Implicit Types w : world R.

Lemma bind_run {A B} (m : run R A) (f : A → run R B) w :
  (m ≫= f) w = match m w with
               | (Returns a, w') => f a w'
               | (Raises e, w') => (Raises e, w')
               end.
Proof. reflexivity. Qed.

Section Preorder.
Context (Rel : relation (world R)) `{!PreOrder Rel}.

Lemma preserves_ret {A} (a : A) : preserves Rel (mret a : run R A).
Proof. intros w. simpl. reflexivity. Qed.

Lemma preserves_raise {A} e : preserves Rel (raise e : run R A).
Proof. intros w. simpl. reflexivity. Qed.

Lemma preserves_get_world : preserves Rel get_world.
Proof. intros w. simpl. reflexivity. Qed.

Lemma preserves_bind {A B} (m : run R A) (f : A → run R B) :
  preserves Rel m → (∀ a, preserves Rel (f a)) → preserves Rel (m ≫= f).
Proof.
  intros Hm Hf w. rewrite bind_run. specialize (Hm w).
  destruct (m w) as [[a|e] w']; simpl in *; [|done].
  etrans; [exact Hm|apply Hf].
Qed.

Lemma preserves_for_each {A} (body : A → run R unit) xs :
  (∀ x, preserves Rel (body x)) → preserves Rel (for_each body xs).
Proof.
  intros Hbody. induction xs as [|x xs IH]; simpl.
  - apply preserves_ret.
  - apply preserves_bind; [apply Hbody|done].
Qed.
End Preorder.

Section Keeps.
Context (Q : event → Prop) (S : relation (mapping * mapping)) `{!PreOrder S}.

#[global] Instance keeps_preorder : PreOrder (keeps (R:=R) Q S).
Proof.
  split.
  - intros w. exists []. by rewrite app_nil_r.
  - intros w1 w2 w3 (evs1 & H1 & Q1 & S1) (evs2 & H2 & Q2 & S2).
    exists (evs1 ++ evs2). split_and!.
    + by rewrite H2, H1, app_assoc.
    + by apply Forall_app.
    + by etrans.
Qed.

Lemma keeps_record e w : Q e → keeps Q S w (record e w).
Proof. intros He. exists [e]. split_and!; [done|by constructor|done]. Qed.

Lemma keeps_print l : Q (Printed l) → preserves (keeps (R:=R) Q S) (print l).
Proof. intros Hl w. by apply keeps_record. Qed.

Lemma keeps_ask answer : Q Asked → preserves (keeps (R:=R) Q S) (ask answer).
Proof. intros Hl w. by apply keeps_record. Qed.

Lemma keeps_sdk {A} c (op : R → sdk_result A * R) :
  (∀ returned, Q (Called c returned)) → preserves (keeps Q S) (sdk c op).
Proof.
  intros Hc w. unfold sdk. destruct (op (remote w)) as [r remote'].
  exists [Called c (if r is Success _ then true else false)].
  split_and!; [done|by constructor|done].
Qed.

Lemma keeps_register_object name id :
  (∀ objects groups, S (objects, groups) (<[name:=id]> objects, groups)) →
  preserves (keeps (R:=R) Q S) (register_object name id).
Proof.
  intros HS w. exists []. split_and!; [by rewrite app_nil_r|done|apply HS].
Qed.

Lemma keeps_register_group name id :
  (∀ objects groups, S (objects, groups) (objects, <[name:=id]> groups)) →
  preserves (keeps (R:=R) Q S) (register_group name id).
Proof.
  intros HS w. exists []. split_and!; [by rewrite app_nil_r|done|apply HS].
Qed.
End Keeps.
End RelationFacts.

(** Decompose a goal [preserves Rel m] along the structure of [m]; what is
    left are the side conditions on single events and registrations. *)
Ltac preserve_step :=
  match goal with
  | |- preserves _ (mret _) => apply preserves_ret; apply _
  | |- preserves _ (raise _) => apply preserves_raise; apply _
  | |- preserves _ subscript_str => apply preserves_raise; apply _
  | |- preserves _ get_world => apply preserves_get_world; apply _
  | |- preserves _ (print _) => apply keeps_print; [apply _|]
  | |- preserves _ (ask _) => apply keeps_ask; [apply _|]
  | |- preserves _ (sdk _ _) => apply keeps_sdk; [apply _|intros ?]
  | |- preserves _ (register_object _ _) => apply keeps_register_object; intros ??
  | |- preserves _ (register_group _ _) => apply keeps_register_group; intros ??
  | |- preserves _ (_ ≫= _) => apply preserves_bind; [apply _| |intros ?]
  | |- preserves _ (for_each _ _) => apply preserves_for_each; [apply _|intros ?]
  | |- preserves _ (match ?x with _ => _ end) => destruct x
  end.

Ltac preserve_with unfolding := repeat first [preserve_step | progress unfolding].

Ltac unfold_wrappers :=
  unfold get_org_appliance_networks, create_policy_objects,
    create_policy_object_groups, get_l3_outbound_rules,
    update_l3_outbound_rules.

Ltac unfold_driver :=
  unfold translate, create_and_report, ensure_group, provision,
    translate_rule, network_names, push, apply_rules.

Section KeepsDriver.
Context {R : Type} `{!Dashboard R}.
Context (Q : event → Prop) (S : relation (mapping * mapping)) `{!PreOrder S}.

Lemma keeps_translate_rules l3_rules :
  preserves (keeps (R:=R) Q S) (translate_rules l3_rules).
Proof.
  induction l3_rules as [|rule rest IH]; simpl; [preserve_with idtac|].
  apply preserves_bind; [apply _| |intros ?].
  - preserve_with unfold_driver.
  - apply preserves_bind; [apply _|done|intros ?]. preserve_with idtac.
Qed.
End KeepsDriver.

Section KeepsMain.
Context {R : Type} `{!Dashboard R}.
Context (Q : event → Prop) (S : relation (mapping * mapping)) `{!PreOrder S}.
Hypothesis Q_printed : ∀ l, Q (Printed l).
Hypothesis S_object : ∀ name id objects groups,
  S (objects, groups) (<[name:=id]> objects, groups).

Lemma keeps_create_and_report cfg :
  (∀ returned, Q (Called (CreatePolicyObject cfg) returned)) →
  preserves (keeps (R:=R) Q S) (create_and_report cfg).
Proof using Q_printed S_object PreOrder0.
  intros Hcfg. preserve_with ltac:(unfold_driver; unfold_wrappers); auto.
Qed.

Hypothesis Q_asked : Q Asked.
Hypothesis Q_create_group : ∀ cfg returned,
  Q (Called (CreatePolicyObjectGroup cfg) returned).
Hypothesis Q_create_object : ∀ cfg returned,
  Q (Called (CreatePolicyObject cfg) returned).
Hypothesis Q_rules : ∀ e, touches_rules e = true → Q e.
Hypothesis S_group : ∀ name id objects groups,
  S (objects, groups) (objects, <[name:=id]> groups).

Lemma keeps_provision policy_object :
  preserves (keeps (R:=R) Q S) (provision policy_object).
Proof using Q_printed Q_create_group Q_create_object S_object S_group PreOrder0.
  preserve_with ltac:(unfold_driver; unfold_wrappers); auto.
Qed.

Lemma keeps_for_each_network overwrite items : ∀ l3_rules,
  preserves (keeps (R:=R) Q S) (for_each_network overwrite items l3_rules).
Proof using Q_printed Q_rules PreOrder0.
  induction items as [|item rest IH]; intros l3_rules; simpl.
  - preserve_with idtac.
  - apply preserves_bind; [apply _| |intros ?; apply IH].
    preserve_with ltac:(unfold_driver; unfold_wrappers); auto.
Qed.

Lemma keeps_apply_l3_rules c answer l3_rules :
  preserves (keeps (R:=R) Q S) (apply_l3_rules c answer l3_rules).
Proof using Q_printed Q_asked Q_rules PreOrder0.
  unfold apply_l3_rules.
  apply preserves_bind; [apply _|by apply keeps_translate_rules|intros ?].
  apply preserves_bind; [apply _|by apply keeps_print|intros ?].
  apply preserves_bind; [apply _| |intros [error response]].
  { preserve_with unfold_wrappers; auto. }
  apply preserves_bind; [apply _| |intros ?].
  { preserve_with unfold_driver; auto. }
  apply preserves_bind; [apply _|by apply keeps_ask|intros ?].
  apply keeps_for_each_network.
Qed.

Lemma keeps_main c i : preserves (keeps (R:=R) Q S) (main c i).
Proof using All.
  unfold main.
  repeat (apply preserves_bind; [apply _|by apply keeps_print|intros ?]).
  destruct (policy_objects_csv i) as [policy_objects|]; [|by apply keeps_print].
  repeat (apply preserves_bind; [apply _|by apply keeps_print|intros ?]).
  apply preserves_bind; [apply _| |intros ?].
  { apply preserves_for_each; [apply _|]. apply keeps_provision. }
  destruct (l3_outbound_rules_csv i) as [l3_rules|]; [|by apply keeps_print].
  apply preserves_bind; [apply _|by apply keeps_print|intros ?].
  apply keeps_apply_l3_rules.
Qed.
End KeepsMain.

#[global] Instance any_mappings_preorder : PreOrder any_mappings.
Proof. by split. Qed.

#[global] Instance same_groups_preorder : PreOrder same_groups.
Proof. split; [done|]. intros a b c. unfold same_groups. congruence. Qed.

#[global] Instance grows_preorder : PreOrder grows.
Proof.
  split; [by split|]. intros a b c [H1 H2] [H3 H4]. split; eauto.
Qed.

Section Tables.
Context {R : Type} `{!Dashboard R}.
Implicit Types w : world R.

Lemma print_run l w : print l w = (Returns (), record (Printed l) w).
Proof. reflexivity. Qed.

Lemma provisioning_touches_no_rules policy_objects :
  preserves (keeps (R:=R) (λ e, touches_rules e = false) any_mappings)
    (for_each provision policy_objects).
Proof.
  apply preserves_for_each; [apply _|]. intros policy_object.
  by apply keeps_provision.
Qed.

Lemma program_events (Q : event → Prop) c i w :
  (∀ returned, Q (Called ListPolicyObjects returned)) →
  (∀ returned, Q (Called ListPolicyObjectGroups returned)) →
  (∀ w1, ∃ evs, history (main c i w1).2 = history w1 ++ evs ∧ Forall Q evs) →
  ∃ evs, history (program c i w).2 = history w ++ evs ∧ Forall Q evs.
Proof.
  intros Hobjects Hgroups Hmain.
  unfold program, MERAKI_API_init. rewrite !bind_run. unfold sdk.
  destruct (getOrganizationPolicyObjects (remote w)) as [[objects|status msg|msg] r1];
    simpl; [|eexists; split; [done|by repeat constructor]..].
  rewrite !bind_run. simpl.
  destruct (getOrganizationPolicyObjectsGroups r1) as [[groups|status msg|msg] r2];
    simpl; [|rewrite <-app_assoc; eexists; split; [done|by repeat constructor]..].
  match goal with |- context [main c i ?w1] =>
    destruct (Hmain w1) as (evs & -> & Hevs) end.
  simpl. rewrite <-!app_assoc. eexists. split; [done|].
  by repeat (constructor; [done|]).
Qed.

(** C3 (as amended).  When the object table is missing, [main] prints the
    two banners and the error and returns without any SDK call, so the only
    SDK calls of the whole run are the catalog listings made at startup:
    the run makes no call that changes the dashboard.  When the rule table
    is missing, neither [main] nor the whole run makes a call that lists
    networks or reads or writes rules, and if [main] returns, the last
    thing it did was to report a missing table.  When the rule table is
    missing and the object table is there, [main] is step 1 followed by the
    report: all of step 1 is carried out first, with its creation calls; if
    step 1 raises, that exception ends the run and nothing is reported;
    otherwise the missing rule table is reported and the run returns. *)
Theorem missing_tables_abort (c : config) (i : inputs) (w : world R) :
  (policy_objects_csv i = None →
     main c i w
     = (Returns (),
        record (Printed PolicyObjectFileNotFound)
          (record (Printed ConfigTable) (record (Printed StartPanel) w)))
     ∧ ∃ evs,
         history (program c i w).2 = history w ++ evs
         ∧ filter is_mutation (calls evs) = [])
  ∧ (l3_outbound_rules_csv i = None →
       (∃ evs,
          history (main c i w).2 = history w ++ evs
          ∧ Forall (λ e, touches_rules e = false) evs
          ∧ ((main c i w).1 = Returns () →
               ∃ l, last evs = Some (Printed l)
                    ∧ (l = PolicyObjectFileNotFound ∨ l = RulesFileNotFound)))
       ∧ (∃ evs,
            history (program c i w).2 = history w ++ evs
            ∧ Forall (λ e, touches_rules e = false) evs)
       ∧ ∀ policy_objects,
           policy_objects_csv i = Some policy_objects →
           let step_1 :=
             for_each provision policy_objects
               (record (Printed (StepPanel "Step 1"))
                  (record (Printed (ReadPolicyObjects (length policy_objects)))
                     (record (Printed ConfigTable)
                        (record (Printed StartPanel) w)))) in
           main c i w
           = match step_1.1 with
             | Returns _ =>
                 (Returns (), record (Printed RulesFileNotFound) step_1.2)
             | Raises e => (Raises e, step_1.2)
             end).
Proof.
  assert (l3_outbound_rules_csv i = None →
          ∀ w1, ∃ evs,
            history (main c i w1).2 = history w1 ++ evs
            ∧ Forall (λ e, touches_rules e = false) evs
            ∧ ((main c i w1).1 = Returns () →
                 ∃ l, last evs = Some (Printed l)
                      ∧ (l = PolicyObjectFileNotFound ∨ l = RulesFileNotFound)))
    as Hrules.
  { intros Hnone w1. unfold main. rewrite Hnone.
    destruct (policy_objects_csv i) as [policy_objects|].
    + repeat (rewrite bind_run, print_run). rewrite bind_run.
      set (w4 := record _ (record _ (record _ (record _ w1)))).
      destruct (provisioning_touches_no_rules policy_objects w4)
        as (evs & Hevs & Hq & _).
      destruct (for_each provision policy_objects w4) as [[[]|e] w'];
        simpl in *; rewrite Hevs; unfold w4; simpl; rewrite <-!app_assoc; simpl.
      * eexists. split; [done|]. split.
        -- repeat (constructor; [done|]). apply Forall_app. split; [done|].
           by constructor.
        -- intros _. exists RulesFileNotFound. split; [|by right].
           rewrite !app_comm_cons. by rewrite last_snoc.
      * eexists. split; [done|]. split; [|done].
        by repeat (constructor; [done|]).
    + simpl. rewrite <-!app_assoc. simpl. eexists. split; [done|].
      split; [by repeat constructor|]. intros _. eauto. }
  split.
  - intros Hnone. split; [unfold main; by rewrite Hnone|].
    unfold program, MERAKI_API_init. rewrite !bind_run. unfold sdk.
    destruct (getOrganizationPolicyObjects (remote w))
      as [[objects|status msg|msg] r1]; simpl; [|by eexists..].
    rewrite !bind_run. simpl.
    destruct (getOrganizationPolicyObjectsGroups r1)
      as [[groups|status msg|msg] r2];
      simpl; [|rewrite <-app_assoc; by eexists..].
    unfold main. rewrite Hnone. simpl. rewrite <-!app_assoc. by eexists.
  - intros Hnone. split_and!.
    + apply (Hrules Hnone).
    + apply program_events; [done..|]. intros w1.
      destruct (Hrules Hnone w1) as (evs & Hevs & Hq & _). eauto.
    + intros policy_objects Hsome step_1. subst step_1.
      unfold main. rewrite Hnone, Hsome.
      repeat (rewrite bind_run, print_run). rewrite bind_run.
      by destruct (for_each provision policy_objects _) as [[[]|e] w'].
Qed.
End Tables.

Lemma group_calls_app n evs1 evs2 :
  group_calls n (evs1 ++ evs2) = group_calls n evs1 ++ group_calls n evs2.
Proof. apply omap_app. Qed.

Lemma reuses_mono groups groups' e :
  groups ⊆ groups' → reuses groups e → reuses groups' e.
Proof.
  intros Hsub He cfg returned ids Hcall Hids.
  destruct (He cfg returned ids Hcall Hids) as (n & gid & -> & Hn).
  exists n, gid. split; [done|]. by eapply lookup_weaken.
Qed.

Lemma group_calls_settled groups n evs :
  Forall (settled groups) evs → group_calls n evs = [].
Proof.
  unfold group_calls. induction 1 as [|e evs [He _] _ IH]; [done|].
  simpl. by rewrite He.
Qed.

Section Orderly.
Context {R : Type} `{!Dashboard R}.
Implicit Types w : world R.

#[global] Instance orderly_preorder : PreOrder (orderly (R:=R)).
Proof.
  split.
  - intros w. exists []. rewrite app_nil_r.
    split_and!; [done|done|done| |done].
    intros n. exists 0. by left.
  - intros w1 w2 w3 (evs1 & H1 & S1 & N1 & C1 & U1) (evs2 & H2 & S2 & N2 & C2 & U2).
    exists (evs1 ++ evs2). split_and!.
    + by rewrite H2, H1, app_assoc.
    + by etrans.
    + intros n Hn. rewrite group_calls_app, (N1 n Hn). simpl. apply N2.
      destruct Hn as [id Hid]. exists id. by eapply lookup_weaken.
    + intros n. rewrite group_calls_app.
      destruct (C1 n) as [k1 [->| [-> Hreg]]].
      * destruct (C2 n) as [k2 [->| [-> Hreg]]]; exists (k1 + k2).
        -- left. by rewrite replicate_add.
        -- right. split; [|done]. by rewrite replicate_add, app_assoc.
      * exists k1. right. rewrite (N2 n Hreg), app_nil_r. split; [done|].
        destruct Hreg as [id Hid]. exists id. by eapply lookup_weaken.
    + apply Forall_app. split; [|done].
      eapply Forall_impl; [exact U1|]. intros e. by apply reuses_mono.
Qed.

Lemma settled_orderly w w' :
  keeps (settled (policy_group_objects_name_to_id w)) same_groups w w' →
  orderly w w'.
Proof.
  intros (evs & Hevs & Hq & Hs). unfold same_groups in Hs. simpl in Hs.
  assert (∀ n, group_calls n evs = []) as Hnone.
  { intros n. by eapply group_calls_settled. }
  exists evs. rewrite <-Hs. split_and!; [done|done|by intros| |].
  - intros n. exists 0. left. apply Hnone.
  - eapply Forall_impl; [exact Hq|]. by intros e [_ ?].
Qed.

Lemma orderly_settled {A} (m : run R A) :
  (∀ groups, preserves (keeps (settled groups) same_groups) m) →
  preserves orderly m.
Proof. intros Hm w. apply settled_orderly, Hm. Qed.

Lemma settled_printed groups l : settled groups (Printed l).
Proof. split; [done|]. by intros ???. Qed.

Lemma settled_asked groups : settled groups Asked.
Proof. split; [done|]. by intros ???. Qed.

Lemma settled_rules groups e : touches_rules e = true → settled groups e.
Proof.
  intros He. split.
  - intros n. by destruct e as [[] ?| |].
  - intros ??? ->. done.
Qed.

Lemma orderly_create_and_report cfg w :
  (∀ ids, cfg !! "groupIds" = Some (Ids ids) →
     ∃ n gid, ids = [gid] ∧ policy_group_objects_name_to_id w !! n = Some gid) →
  orderly w (create_and_report cfg w).2.
Proof.
  intros Hcfg. apply settled_orderly.
  apply keeps_create_and_report; [apply _|apply settled_printed|done|].
  intros returned. split; [done|]. intros cfg' ?? [= <- _]. apply Hcfg.
Qed.

Lemma orderly_ensure_group group_name : preserves orderly (ensure_group group_name).
Proof.
  intros w. unfold ensure_group. rewrite bind_run. simpl.
  destruct (decide _) as [Hreg|Hnew]; [reflexivity|].
  apply eq_None_not_Some in Hnew.
  set (group_payload := ({[ "name" := Cell group_name;
         "category" := Cell (VStr "NetworkObjectGroup") ]} : payload)).
  assert (group_payload !! "name" = Some (Cell group_name)) as Hname by done.
  assert (∀ n returned,
    group_call n (Called (CreatePolicyObjectGroup group_payload) returned)
    = if decide (n = group_name) then Some returned else None) as Hcall.
  { intros n returned. simpl. rewrite Hname.
    destruct (decide (n = group_name)) as [->|Hne].
    - by rewrite decide_True.
    - rewrite decide_False; [done|]. intros [= ->]. done. }
  rewrite bind_run. unfold create_policy_object_groups. rewrite bind_run.
  unfold sdk.
  destruct (createOrganizationPolicyObjectsGroup group_payload (remote w))
    as [[response|status msg|msg] remote'].
  - rewrite Hname. simpl.
    eexists [_; _]. simpl. split_and!.
    + by rewrite <-app_assoc.
    + by apply insert_subseteq.
    + intros n Hn. unfold group_calls. simpl. rewrite Hname.
      rewrite decide_False; [done|]. intros [= ->]. rewrite Hnew in Hn.
      by destruct Hn.
    + intros n. exists 0. unfold group_calls. simpl. rewrite Hname.
      destruct (decide (Some (Cell group_name) = Some (Cell n))) as [[= <-]|_].
      * right. split; [done|]. rewrite lookup_insert_eq. eauto.
      * by left.
    + repeat constructor; by intros ???.
  - simpl. destruct (truthy status); simpl.
    all: eexists [_; _]; simpl; split_and!;
      [by rewrite <-app_assoc|done| | |repeat constructor; by intros ???].
    all: try (intros n Hn; unfold group_calls; simpl; rewrite Hname;
      rewrite decide_False; [done|]; intros [= ->]; rewrite Hnew in Hn;
      by destruct Hn).
    all: intros n; unfold group_calls; simpl; rewrite Hname;
      destruct (decide (Some (Cell group_name) = Some (Cell n)));
      [by exists 1; left|by exists 0; left].
  - simpl. eexists [_; _]; simpl; split_and!;
      [by rewrite <-app_assoc|done| | |repeat constructor; by intros ???].
    + intros n Hn; unfold group_calls; simpl; rewrite Hname;
      rewrite decide_False; [done|]; intros [= ->]; rewrite Hnew in Hn;
      by destruct Hn.
    + intros n; unfold group_calls; simpl; rewrite Hname;
      destruct (decide (Some (Cell group_name) = Some (Cell n)));
      [by exists 1; left|by exists 0; left].
Qed.

Lemma lookup_cells (policy_object : row) key ids :
  (Cell <$> policy_object : payload) !! key ≠ Some (Ids ids).
Proof. rewrite lookup_fmap. by destruct (policy_object !! key). Qed.

Lemma orderly_provision policy_object : preserves orderly (provision policy_object).
Proof.
  assert (∀ w, orderly w (create_and_report (Cell <$> policy_object) w).2) as Hplain.
  { intros w. apply orderly_create_and_report. intros ids Hids.
    by apply lookup_cells in Hids. }
  unfold provision. destruct (policy_object !! "_group_name") as [group_name|]; [|done].
  destruct (decide (group_name ≠ VStr "")); [|done].
  apply preserves_bind; [apply _|apply orderly_ensure_group|].
  intros [|]; [|by apply preserves_ret; apply _].
  intros w. rewrite bind_run. simpl.
  destruct (policy_group_objects_name_to_id w !! group_name) as [group_id|] eqn:Hid;
    [|reflexivity].
  apply orderly_create_and_report. intros ids. rewrite lookup_insert_eq.
  intros [= <-]. eauto.
Qed.

Lemma orderly_main c i : preserves orderly (main c i).
Proof.
  unfold main.
  assert (∀ l, preserves (orderly (R:=R)) (print l)) as Hprint.
  { intros l. apply orderly_settled. intros groups.
    apply keeps_print; [apply _|apply settled_printed]. }
  repeat (apply preserves_bind; [apply _|by apply Hprint|intros ?]).
  destruct (policy_objects_csv i) as [policy_objects|]; [|by apply Hprint].
  repeat (apply preserves_bind; [apply _|by apply Hprint|intros ?]).
  apply preserves_bind; [apply _| |intros ?].
  { apply preserves_for_each; [apply _|]. apply orderly_provision. }
  destruct (l3_outbound_rules_csv i) as [l3_rules|]; [|by apply Hprint].
  apply preserves_bind; [apply _|by apply Hprint|intros ?].
  apply orderly_settled. intros groups. apply keeps_apply_l3_rules.
  - apply _.
  - apply settled_printed.
  - apply settled_asked.
  - apply settled_rules.
Qed.
End Orderly.

(** C6.  For every address string and every pair of mappings: a string
    that is an object name translates to [OBJ(id)] with that object's id,
    also when it is a group name as well; otherwise a string that is a
    group name translates to [GRP(id)] with that group's id; any other
    string is returned unchanged. *)
Theorem translate_cidr_to_objects_cases (objects groups : mapping) (cidr : string) :
  (∀ obj_id, objects !! VStr cidr = Some obj_id →
     translate_cidr_to_objects objects groups (VStr cidr)
     = VStr ("OBJ(" +:+ obj_id +:+ ")"))
  ∧ (∀ grp_id, objects !! VStr cidr = None → groups !! VStr cidr = Some grp_id →
       translate_cidr_to_objects objects groups (VStr cidr)
       = VStr ("GRP(" +:+ grp_id +:+ ")"))
  ∧ (objects !! VStr cidr = None → groups !! VStr cidr = None →
       translate_cidr_to_objects objects groups (VStr cidr) = VStr cidr)
  ∧ (∀ obj_id grp_id,
       objects !! VStr cidr = Some obj_id → groups !! VStr cidr = Some grp_id →
       translate_cidr_to_objects objects groups (VStr cidr)
       = VStr ("OBJ(" +:+ obj_id +:+ ")")).
Proof.
  unfold translate_cidr_to_objects. split_and!.
  - by intros obj_id ->.
  - by intros grp_id -> ->.
  - by intros -> ->.
  - by intros obj_id grp_id -> _.
Qed.

Lemma grows_object name id (objects groups : mapping) :
  grows (objects, groups) (<[name:=id]> objects, groups).
Proof.
  split; [|done]. simpl. intros n Hn. rewrite lookup_insert_is_Some. 
  destruct (decide (name = n)); auto.
Qed.

Lemma grows_group name id (objects groups : mapping) :
  grows (objects, groups) (objects, <[name:=id]> groups).
Proof.
  split; [done|]. simpl. intros n Hn. rewrite lookup_insert_is_Some.
  destruct (decide (name = n)); auto.
Qed.

Lemma name_to_id_lookup catalog e :
  e ∈ catalog → is_Some (name_to_id catalog !! VStr (entity_name e)).
Proof.
  unfold name_to_id. generalize (∅ : mapping).
  induction catalog as [|e' catalog IH]; intros acc; [by intros ?%elem_of_nil|].
  assert (∀ acc : mapping, is_Some (acc !! VStr (entity_name e)) →
    is_Some (foldl (λ mapping e0, <[VStr (entity_name e0):=entity_id e0]> mapping)
               acc catalog !! VStr (entity_name e))) as Hkeep.
  { clear. induction catalog as [|e' catalog IH]; intros acc Hacc; [done|].
    simpl. apply IH. rewrite lookup_insert_is_Some.
    destruct (decide (VStr (entity_name e') = VStr (entity_name e))); auto. }
  intros [->|He]%elem_of_cons; simpl.
  - apply Hkeep. rewrite lookup_insert_eq. eauto.
  - by apply IH.
Qed.

Section Index.
Context {R : Type} `{!Dashboard R}.
Implicit Types w : world R.

Lemma keeps_mappings Q S w w' : keeps Q S w w' → S (mappings w) (mappings w').
Proof. by intros (? & _ & _ & ?). Qed.

Lemma grows_wrappers c cfg network_id l3_rules :
  preserves (keeps (R:=R) (λ _, True) grows) (create_policy_objects cfg)
  ∧ preserves (keeps (R:=R) (λ _, True) grows) (create_policy_object_groups cfg)
  ∧ preserves (keeps (R:=R) (λ _, True) grows) (get_org_appliance_networks c)
  ∧ preserves (keeps (R:=R) (λ _, True) grows) (get_l3_outbound_rules network_id)
  ∧ preserves (keeps (R:=R) (λ _, True) grows)
      (update_l3_outbound_rules network_id l3_rules).
Proof.
  split_and!; preserve_with unfold_wrappers;
    auto using grows_object, grows_group.
Qed.

Lemma grows_main c i : preserves (keeps (R:=R) (λ _, True) grows) (main c i).
Proof. apply keeps_main; auto using grows_object, grows_group. apply _. Qed.

(** C7.  In every world each mapping holds at most one identifier for a
    name.  When the SDK creates a named object (group), the wrapper
    reports success and the name is mapped to the new identifier in the
    world it leaves, where translation already resolves the name; a
    wrapper that reports success has registered the entry.  No wrapper,
    and no run of [main], removes an entry of either mapping, and a
    creation leaves the entries of all other names as they are. *)
Theorem reference_index_registration (w : world R) :
  (∀ n i j,
     (policy_objects_name_to_id w !! n = Some i →
      policy_objects_name_to_id w !! n = Some j → i = j)
     ∧ (policy_group_objects_name_to_id w !! n = Some i →
        policy_group_objects_name_to_id w !! n = Some j → i = j))
  ∧ (∀ cfg name response remote',
       cfg !! "name" = Some (Cell name) →
       createOrganizationPolicyObject cfg (remote w) = (Success response, remote') →
       let w' := (create_policy_objects cfg w).2 in
       (create_policy_objects cfg w).1 = Returns (None, Payload response)
       ∧ policy_objects_name_to_id w' !! name = Some (entity_id response)
       ∧ translate name w'
         = (Returns (VStr ("OBJ(" +:+ entity_id response +:+ ")")), w'))
  ∧ (∀ cfg name response remote',
       cfg !! "name" = Some (Cell name) →
       createOrganizationPolicyObjectsGroup cfg (remote w)
       = (Success response, remote') →
       let w' := (create_policy_object_groups cfg w).2 in
       (create_policy_object_groups cfg w).1 = Returns (None, Payload response)
       ∧ policy_group_objects_name_to_id w' !! name = Some (entity_id response)
       ∧ (policy_objects_name_to_id w !! name = None →
          translate name w'
          = (Returns (VStr ("GRP(" +:+ entity_id response +:+ ")")), w')))
  ∧ (∀ cfg response,
       ((create_policy_objects cfg w).1 = Returns (None, Payload response) →
        ∃ name, cfg !! "name" = Some (Cell name)
          ∧ policy_objects_name_to_id (create_policy_objects cfg w).2 !! name
            = Some (entity_id response))
       ∧ ((create_policy_object_groups cfg w).1 = Returns (None, Payload response) →
          ∃ name, cfg !! "name" = Some (Cell name)
            ∧ policy_group_objects_name_to_id (create_policy_object_groups cfg w).2
                !! name = Some (entity_id response)))
  ∧ (∀ c cfg network_id l3_rules,
       grows (mappings w) (mappings (create_policy_objects cfg w).2)
       ∧ grows (mappings w) (mappings (create_policy_object_groups cfg w).2)
       ∧ grows (mappings w) (mappings (get_org_appliance_networks c w).2)
       ∧ grows (mappings w) (mappings (get_l3_outbound_rules network_id w).2)
       ∧ grows (mappings w)
           (mappings (update_l3_outbound_rules network_id l3_rules w).2))
  ∧ (∀ c i, grows (mappings w) (mappings (main c i w).2))
  ∧ (∀ cfg n,
       cfg !! "name" ≠ Some (Cell n) →
       policy_objects_name_to_id (create_policy_objects cfg w).2 !! n
       = policy_objects_name_to_id w !! n
       ∧ policy_group_objects_name_to_id (create_policy_object_groups cfg w).2 !! n
         = policy_group_objects_name_to_id w !! n).
Proof.
  split_and!.
  - intros n i j. split; congruence.
  - intros cfg name response remote' Hname Hsdk.
    unfold create_policy_objects, translate. rewrite !bind_run. unfold sdk.
    rewrite Hsdk, Hname. simpl. split_and!; [done|by rewrite lookup_insert_eq|].
    unfold translate_cidr_to_objects. by rewrite lookup_insert_eq.
  - intros cfg name response remote' Hname Hsdk.
    unfold create_policy_object_groups, translate. rewrite !bind_run. unfold sdk.
    rewrite Hsdk, Hname. simpl. split_and!; [done|by rewrite lookup_insert_eq|].
    intros Hobj. unfold translate_cidr_to_objects.
    by rewrite Hobj, lookup_insert_eq.
  - intros cfg response. split.
    + unfold create_policy_objects. rewrite !bind_run. unfold sdk.
      destruct (createOrganizationPolicyObject cfg (remote w))
        as [[response'|status msg|msg] remote']; [|done..].
      destruct (cfg !! "name") as [[name|ids]|]; [|done..]. simpl.
      intros [= <-]. exists name. by rewrite lookup_insert_eq.
    + unfold create_policy_object_groups. rewrite !bind_run. unfold sdk.
      destruct (createOrganizationPolicyObjectsGroup cfg (remote w))
        as [[response'|status msg|msg] remote']; [|done..].
      destruct (cfg !! "name") as [[name|ids]|]; [|done..]. simpl.
      intros [= <-]. exists name. by rewrite lookup_insert_eq.
  - intros c cfg network_id l3_rules.
    destruct (grows_wrappers c cfg network_id l3_rules) as (H1 & H2 & H3 & H4 & H5).
    split_and!; eapply keeps_mappings; [apply H1|apply H2|apply H3|apply H4|apply H5].
  - intros c i. eapply keeps_mappings, grows_main.
  - intros cfg n Hname. split.
    + unfold create_policy_objects. rewrite !bind_run. unfold sdk.
      destruct (createOrganizationPolicyObject cfg (remote w))
        as [[response|status msg|msg] remote']; [|done..].
      destruct (cfg !! "name") as [[name|ids]|]; [|done..]. simpl.
      apply lookup_insert_ne. congruence.
    + unfold create_policy_object_groups. rewrite !bind_run. unfold sdk.
      destruct (createOrganizationPolicyObjectsGroup cfg (remote w))
        as [[response|status msg|msg] remote']; [|done..].
      destruct (cfg !! "name") as [[name|ids]|]; [|done..]. simpl.
      apply lookup_insert_ne. congruence.
Qed.

(** C8 (as amended).  In a run of [main], for every group name: no
    creation call is made if the name is mapped when the run starts; the
    creation calls for the name are failed calls followed by at most one
    call that succeeds; an identifier mapped at the start stays mapped;
    and every object creation that names groups names one identifier
    held by the group mapping.  When the program starts from the
    catalog, no creation call is made for a group the catalog lists. *)
Theorem group_creation_calls (c : config) (i : inputs) (w : world R) :
  (∃ evs,
     history (main c i w).2 = history w ++ evs
     ∧ (∀ n, is_Some (policy_group_objects_name_to_id w !! n) →
             group_calls n evs = [])
     ∧ (∀ n, ∃ k, group_calls n evs = replicate k false
                  ∨ group_calls n evs = replicate k false ++ [true])
     ∧ (∀ n id, policy_group_objects_name_to_id w !! n = Some id →
                policy_group_objects_name_to_id (main c i w).2 !! n = Some id)
     ∧ Forall (reuses (policy_group_objects_name_to_id (main c i w).2)) evs)
  ∧ (∀ policy_objects policy_object_groups remote1 remote2 g,
       getOrganizationPolicyObjects (remote w) = (Success policy_objects, remote1) →
       getOrganizationPolicyObjectsGroups remote1
       = (Success policy_object_groups, remote2) →
       g ∈ policy_object_groups →
       ∃ evs, history (program c i w).2 = history w ++ evs
              ∧ group_calls (VStr (entity_name g)) evs = []).
Proof.
  split.
  - destruct (orderly_main c i w) as (evs & Hevs & Hsub & Hnone & Hcalls & Hreuse).
    exists evs. split_and!; [done|done| |by intros n id ?; eapply lookup_weaken|done].
    intros n. destruct (Hcalls n) as [k [?|[? _]]]; eauto.
  - intros policy_objects policy_object_groups remote1 remote2 g Hobjs Hgrps Hg.
    unfold program, MERAKI_API_init. rewrite !bind_run. unfold sdk at 1.
    rewrite Hobjs. simpl. rewrite !bind_run. unfold sdk at 1. simpl.
    rewrite Hgrps. simpl.
    match goal with |- context [main c i ?w1] => set (w1' := w1) end.
    destruct (orderly_main c i w1') as (evs & Hevs & _ & Hnone & _).
    eexists. rewrite Hevs. simpl. rewrite <-!app_assoc. split; [done|].
    simpl. apply Hnone. simpl. by apply name_to_id_lookup.
Qed.
End Index.

Section Steps.
Context {R : Type} `{!Dashboard R}.
Implicit Types w : world R.

Lemma calls_app h1 h2 : calls (h1 ++ h2) = calls h1 ++ calls h2.
Proof. apply omap_app. Qed.

(** A push issues one update call, whatever its outcome, and returns. *)
Lemma push_calls network l3_rules w :
  (push network l3_rules w).1 = Returns ()
  ∧ calls (history (push network l3_rules w).2)
    = calls (history w) ++ [UpdateRules (net_id network) l3_rules].
Proof.
  unfold push, update_l3_outbound_rules. rewrite !bind_run. unfold sdk.
  destruct (updateNetworkApplianceFirewallL3FirewallRules _ _ _)
    as [[response|status msg|msg] remote']; simpl.
  - by rewrite <-app_assoc, calls_app.
  - destruct (truthy status); simpl; by rewrite <-app_assoc, calls_app.
  - by rewrite <-app_assoc, calls_app.
Qed.

(** The overwrite half of C2: in overwrite mode every network is sent the
    same rule list, nothing is fetched or merged, and the loop returns
    whether or not the updates succeed. *)
Lemma overwrite_pushes_table networks l3_rules : ∀ w,
  (for_each_network true (inl <$> networks) l3_rules w).1 = Returns ()
  ∧ calls (history (for_each_network true (inl <$> networks) l3_rules w).2)
    = calls (history w)
      ++ ((λ network, UpdateRules (net_id network) l3_rules) <$> networks).
Proof.
  induction networks as [|network rest IH]; intros w; simpl.
  - by rewrite app_nil_r.
  - rewrite !bind_run.
    destruct (push_calls network l3_rules w) as [Hret Hcalls].
    destruct (push network l3_rules w) as [[[]|e] w1]; [|done]. simpl in *.
    destruct (IH w1) as [Hret' Hcalls']. split; [exact Hret'|].
    etrans; [exact Hcalls'|]. by rewrite Hcalls, <-app_assoc.
Qed.

(** X11.  One merge iteration: the merged list is what is sent to the
    network and what the local [l3_rules] holds when the next iteration
    starts. *)
Lemma apply_rules_merge network l3_rules existing_rules merged remote' w :
  getNetworkApplianceFirewallL3FirewallRules (net_id network) (remote w)
  = (Success existing_rules, remote') →
  combine_lists existing_rules l3_rules = Returns merged →
  (apply_rules false (inl network) l3_rules w).1 = Returns merged
  ∧ calls (history (apply_rules false (inl network) l3_rules w).2)
    = calls (history w)
      ++ [GetRules (net_id network); UpdateRules (net_id network) merged].
Proof.
  intros Hget Hmerge. unfold apply_rules, get_l3_outbound_rules.
  rewrite !bind_run. unfold sdk. rewrite Hget. simpl. rewrite Hmerge.
  rewrite !bind_run.
  match goal with |- context [push network merged ?w1] =>
    destruct (push_calls network merged w1) as [Hret Hcalls];
    destruct (push network merged w1) as [[[]|e] w2]; [|done]
  end.
  simpl in *. split; [done|]. rewrite Hcalls, calls_app. simpl.
  by rewrite <-app_assoc.
Qed.

(** X12.  The part of C4 that holds.  A failure reported with a truthy code is
    logged and skips one item: a failed group creation skips the object of
    its row, a failed object creation only that object, a failed fetch the
    update of that network, a failed update nothing else.  In each case the
    iteration returns, so the loop goes on with the next item. *)
Lemma item_failures_are_skipped w :
  (∀ policy_object group_name error remote',
     policy_object !! "_group_name" = Some group_name →
     group_name ≠ VStr "" →
     policy_group_objects_name_to_id w !! group_name = None →
     createOrganizationPolicyObjectsGroup
       {[ "name" := Cell group_name;
          "category" := Cell (VStr "NetworkObjectGroup") ]} (remote w)
     = (error, remote') →
     match error with
     | Success _ => False
     | APIError status _ => truthy status = true
     | SDKError _ => True
     end →
     (provision policy_object w).1 = Returns ()
     ∧ ∃ cfg l,
         history (provision policy_object w).2
         = history w ++ [Called (CreatePolicyObjectGroup cfg) false; Printed l])
  ∧ (∀ cfg name error remote',
       cfg !! "name" = Some name →
       createOrganizationPolicyObject cfg (remote w) = (error, remote') →
       match error with
       | Success _ => False
       | APIError status _ => truthy status = true
       | SDKError _ => True
       end →
       (create_and_report cfg w).1 = Returns ()
       ∧ ∃ l, history (create_and_report cfg w).2
              = history w ++ [Called (CreatePolicyObject cfg) false; Printed l])
  ∧ (∀ network l3_rules error remote',
       getNetworkApplianceFirewallL3FirewallRules (net_id network) (remote w)
       = (error, remote') →
       match error with
       | Success _ => False
       | APIError status _ => truthy status = true
       | SDKError _ => True
       end →
       (apply_rules false (inl network) l3_rules w).1 = Returns l3_rules
       ∧ ∃ l, history (apply_rules false (inl network) l3_rules w).2
              = history w ++ [Called (GetRules (net_id network)) false; Printed l])
  ∧ (∀ network l3_rules,
       (push network l3_rules w).1 = Returns ()).
Proof.
  split_and!.
  - intros policy_object group_name error remote' Hgroup Hne Hnew Hsdk Herr.
    unfold provision. rewrite Hgroup. rewrite decide_True by done.
    rewrite bind_run. unfold ensure_group. rewrite bind_run. simpl.
    rewrite decide_False by (rewrite Hnew; by intros [? ?]).
    rewrite bind_run. unfold create_policy_object_groups. rewrite bind_run.
    unfold sdk. rewrite Hsdk.
    destruct error as [response|status msg'|msg']; [done| |]; simpl.
    + rewrite Herr. simpl. rewrite <-app_assoc. eauto.
    + rewrite <-app_assoc. eauto.
  - intros cfg name error remote' Hname Hsdk Herr.
    unfold create_and_report, create_policy_objects. rewrite !bind_run.
    unfold sdk. rewrite Hsdk.
    destruct error as [response|status msg'|msg']; [done| |]; simpl.
    + rewrite Herr, Hname. simpl. rewrite <-app_assoc. eauto.
    + rewrite Hname. simpl. rewrite <-app_assoc. eauto.
  - intros network l3_rules error remote' Hsdk Herr.
    unfold apply_rules, get_l3_outbound_rules. rewrite !bind_run.
    unfold sdk. rewrite Hsdk.
    destruct error as [response|status msg'|msg']; [done| |]; simpl.
    + rewrite Herr. simpl. rewrite <-app_assoc. eauto.
    + rewrite <-app_assoc. eauto.
  - intros network l3_rules. apply push_calls.
Qed.
End Steps.

(** ** Concrete runs *)

(** Concrete rules carry their key fields: run the key extraction. *)
Ltac well_keyed :=
  repeat constructor; apply key_extractor_total; eexists; vm_compute; reflexivity.

(** Concrete rules carry ASCII key fields: look the six fields up. *)
Ltac ascii_keyed :=
  repeat (apply Forall_cons_2; [|]); [..|apply Forall_nil_2];
  intros f Hf;
  (repeat (apply elem_of_cons in Hf as [->|Hf]); [..|by apply elem_of_nil in Hf]);
  eexists; (split; [vm_compute; reflexivity|unfold is_ascii; compute_done]).

(** C1 as stated fails: two well-formed existing rules with equal keys are
    both in the output. *)
Lemma merge_keeps_duplicate_existing_keys :
  Forall well_keyed deny_ssh_twice
  ∧ combine_lists deny_ssh_twice [] = Returns deny_ssh_twice
  ∧ ¬ distinct_keys deny_ssh_twice.
Proof.
  split_and!; [well_keyed|compute_done|].
  intros Hd.
  assert (0 = 1) as Heq; [|discriminate Heq].
  eapply Hd; [reflexivity|reflexivity|compute_done].
Qed.

Lemma merge_keeps_existing_then_new_witness :
  Forall ascii_keyed [deny_ssh; allow_any]
  ∧ Forall ascii_keyed [deny_ssh; allow_https]
  ∧ (∃ added,
       combine_lists [deny_ssh; allow_any] [deny_ssh; allow_https]
       = Returns (kept_existing [deny_ssh; allow_any] ++ added)
       ∧ added `sublist_of` [deny_ssh; allow_https]
       ∧ distinct_keys (kept_existing [deny_ssh; allow_any] ++ added))
  ∧ key_extractor (mk_rule "Allow" "TCP" "any" "10.0.0.0/8" "any" "443")
    = key_extractor (mk_rule "allow" "tcp" "any" "10.0.0.0/8" "any" "443").
Proof.
  assert (Forall ascii_keyed [deny_ssh; allow_any]) as Hex by ascii_keyed.
  assert (Forall ascii_keyed [deny_ssh; allow_https]) as Hnew by ascii_keyed.
  split_and!; [done|done|..];
    destruct (merge_keeps_existing_then_new _ _ Hex Hnew)
      as (added & Hout & Hsub & _ & _ & _ & Hd & Hcase).
  - exists added. split_and!; [done|done|]. apply Hd.
    intros [|[|?]] [|[|?]] r1 r2; try done; vm_compute; congruence.
  - apply Hcase. intros f Hf.
    repeat (apply elem_of_cons in Hf as [->|Hf]); [..|by apply elem_of_nil in Hf];
      do 2 eexists;
      (split_and!; [vm_compute; reflexivity| |unfold is_ascii; compute_done|];
       [vm_compute; reflexivity|]);
      simpl; repeat split;
      first [by left|right; left; unfold capital_of; compute; lia].
Defined.

(** C5 as stated fails: a default-key rule of the existing list is in the
    output when the incoming list holds it too. *)
Lemma default_rule_reappears :
  is_default allow_any
  ∧ allow_any ∈ [allow_any]
  ∧ ∃ out, combine_lists [allow_any] [allow_any] = Returns out ∧ allow_any ∈ out.
Proof.
  split_and!; [compute_done|left|].
  exists [allow_any]. split; [compute_done|left].
Qed.

Lemma default_rule_only_from_incoming_witness :
  combine_lists [allow_any; deny_ssh] [allow_https] = Returns [deny_ssh; allow_https]
  ∧ ∀ r, r ∈ [deny_ssh; allow_https] → is_default r → r ∈ [allow_https].
Proof.
  assert (combine_lists [allow_any; deny_ssh] [allow_https]
          = Returns [deny_ssh; allow_https]) as Hout by compute_done.
  split; [done|]. exact (proj2 (default_rule_only_from_incoming _ _ _ Hout)).
Defined.

Lemma combine_lists_partial_witness :
  Forall well_keyed [deny_ssh] ∧ Forall well_keyed [allow_https]
  ∧ ∃ out, combine_lists [deny_ssh] [allow_https] = Returns out.
Proof.
  assert (Forall well_keyed [deny_ssh]) as Hex by well_keyed.
  assert (Forall well_keyed [allow_https]) as Hnew by well_keyed.
  split_and!; [done|done|].
  exact (proj2 (proj1 combine_lists_partial [deny_ssh] [allow_https]) (conj Hex Hnew)).
Defined.

Lemma default_rule_from_incoming_witness :
  combine_lists [allow_any; deny_ssh] [allow_https; allow_any]
  = Returns [deny_ssh; allow_https; allow_any]
  ∧ allow_any ∈ [allow_https; allow_any]
  ∧ is_default allow_any
  ∧ ∃ r', r' ∈ [allow_https; allow_any] ∧ is_default r'
          ∧ r' ∈ [deny_ssh; allow_https; allow_any].
Proof.
  assert (combine_lists [allow_any; deny_ssh] [allow_https; allow_any]
          = Returns [deny_ssh; allow_https; allow_any]) as Hout by compute_done.
  assert (allow_any ∈ [allow_https; allow_any]) as Hin by (right; left).
  assert (is_default allow_any) as Hd by compute_done.
  split_and!; [done..|]. exact (default_rule_from_incoming _ _ _ _ Hout Hin Hd).
Defined.

Lemma translate_cidr_to_objects_cases_witness :
  let objects : mapping := {[ VStr "Web-Server" := "123" ]} in
  let groups : mapping := {[ VStr "Web-Server" := "9"; VStr "Servers" := "7" ]} in
  translate_cidr_to_objects objects groups (VStr "Web-Server") = VStr "OBJ(123)"
  ∧ translate_cidr_to_objects objects groups (VStr "Servers") = VStr "GRP(7)"
  ∧ translate_cidr_to_objects objects groups (VStr "10.1.1.0/24") = VStr "10.1.1.0/24".
Proof.
  intros objects groups.
  destruct (translate_cidr_to_objects_cases objects groups "Web-Server")
    as (Hobj & _ & _ & _).
  destruct (translate_cidr_to_objects_cases objects groups "Servers")
    as (_ & Hgrp & _ & _).
  destruct (translate_cidr_to_objects_cases objects groups "10.1.1.0/24")
    as (_ & _ & Hraw & _).
  split_and!.
  - apply (Hobj "123"). reflexivity.
  - apply (Hgrp "7"); reflexivity.
  - apply Hraw; reflexivity.
Defined.

(** C3 as stated fails: the rule table is missing and the run reports it
    after it has created a policy object. *)
Lemma rule_table_missing_after_creation :
  l3_outbound_rules_csv rules_missing = None
  ∧ (main no_filter rules_missing (start two_branches)).1 = Returns ()
  ∧ filter is_mutation
      (calls (history (main no_filter rules_missing (start two_branches)).2))
    = [CreatePolicyObject (Cell <$> web_server)]
  ∧ last (history (main no_filter rules_missing (start two_branches)).2)
    = Some (Printed RulesFileNotFound).
Proof. split_and!; compute_done. Qed.

Lemma missing_tables_abort_witness :
  l3_outbound_rules_csv rules_missing = None
  ∧ policy_objects_csv rules_missing = Some [web_server]
  ∧ (∃ evs,
       history (main no_filter rules_missing (start two_branches)).2 = [] ++ evs
       ∧ Forall (λ e, touches_rules e = false) evs)
  ∧ main no_filter rules_missing (start two_branches)
    = (Returns (),
       record (Printed RulesFileNotFound)
         (for_each provision [web_server]
            (record (Printed (StepPanel "Step 1"))
               (record (Printed (ReadPolicyObjects 1))
                  (record (Printed ConfigTable)
                     (record (Printed StartPanel) (start two_branches)))))).2).
Proof.
  split_and!; [reflexivity|reflexivity|..];
    destruct (proj2 (missing_tables_abort no_filter rules_missing (start two_branches))
                eq_refl)
      as ((evs & Hevs & Hq & _) & _ & Hstep).
  - exists evs. by split.
  - exact (Hstep [web_server] eq_refl).
Defined.

(** C8 as stated fails: two rows name the group [Servers], its creation
    fails, and two creation calls are made for it. *)
Lemma failed_group_creation_is_retried :
  (main no_filter two_servers (start groups_refused)).1 = Returns ()
  ∧ group_calls (VStr "Servers")
      (history (main no_filter two_servers (start groups_refused)).2)
    = [false; false].
Proof. split; compute_done. Qed.

(** C2 (the code at the failing input).  With two networks holding one rule
    each and a rule table of one rule, in merge mode, the second network is
    sent the first network's rule as well, while merging its own rule with
    the table gives two rules. *)
Theorem merge_accumulates_across_networks :
  (main no_filter merge_one_rule (start two_branches)).1 = Returns ()
  ∧ pushes (history (main no_filter merge_one_rule (start two_branches)).2)
    = [("N_1", [deny_ssh; allow_https]);
       ("N_2", [deny_dns; deny_ssh; allow_https])]
  ∧ combine_lists [deny_dns] [allow_https] = Returns [deny_dns; allow_https].
Proof. split_and!; compute_done. Qed.

(** C4 (the code at the failing input).  When listing the networks fails,
    the run prints the error, asks its question and then raises
    [TypeError] on the first character of the error message. *)
Theorem network_listing_failure_raises :
  (main no_filter merge_one_rule (start listing_refused)).1
  = Raises (TypeError "string indices must be integers, not 'str'")
  ∧ history (main no_filter merge_one_rule (start listing_refused)).2
    = [Printed StartPanel; Printed ConfigTable; Printed (ReadPolicyObjects 0);
       Printed (StepPanel "Step 1"); Printed (ReadRules 1);
       Printed (StepPanel "Step 2"); Called ListNetworks false;
       Printed (ErrorGettingNetworks (Some "404") (Message "404 Not Found"));
       Asked].
Proof. split; compute_done. Qed.

Lemma reference_index_registration_witness :
  let w := start two_branches in
  let cfg : payload := Cell <$> web_server in
  let w' := (create_policy_objects cfg w).2 in
  policy_objects_name_to_id w' !! VStr "Web-Server" = Some "1"
  ∧ translate (VStr "Web-Server") w' = (Returns (VStr "OBJ(1)"), w').
Proof.
  intros w cfg w'.
  destruct (reference_index_registration w) as (_ & Hobj & _).
  destruct (Hobj cfg (VStr "Web-Server")
              {| entity_name := "Web-Server"; entity_id := "1" |} (remote w))
    as (_ & Hlookup & Htranslate); [reflexivity|reflexivity|].
  split; [exact Hlookup|exact Htranslate].
Defined.

Lemma group_creation_calls_witness :
  ∃ evs,
    history (program no_filter two_servers (start servers_exist)).2 = [] ++ evs
    ∧ group_calls (VStr "Servers") evs = [].
Proof.
  destruct (group_creation_calls no_filter two_servers (start servers_exist))
    as [_ Hstartup].
  apply (Hstartup [] [{| entity_name := "Servers"; entity_id := "7" |}]
           servers_exist servers_exist
           {| entity_name := "Servers"; entity_id := "7" |});
    [reflexivity|reflexivity|left].
Defined.

(** ** Further properties *)

Lemma combine_lists_covers existing new out :
  combine_lists existing new = Returns out → covers new out.
Proof.
  intros (added & -> & _ & _ & _ & _ & _ & Hsel)%combine_lists_Returns r Hr.
  apply list_elem_of_lookup in Hr as [i Hi].
  revert r Hi. induction (lt_wf i) as [i _ IH]. intros r Hi.
  destruct (decide (Exists (λ r', key_extractor r' = key_extractor r)
                      (kept_existing existing))) as [Hkept|Hkept].
  { apply Exists_exists in Hkept as (r' & Hr' & Heq).
    exists r'. split; [|done]. apply elem_of_app. by left. }
  destruct (decide (Exists (λ r', key_extractor r' = key_extractor r)
                      (take i new))) as [Hearlier|Hearlier].
  { apply Exists_exists in Hearlier as (r' & Hr' & Heq).
    apply list_elem_of_lookup in Hr' as [j Hj].
    apply lookup_take_Some in Hj as [Hj Hlt].
    destruct (IH j Hlt r' Hj) as (r'' & Hin & Heq'').
    exists r''. split; [done|congruence]. }
  exists r. split; [|done]. apply elem_of_app. right. apply (Hsel i r Hi).
  - intros r' Hr' Heq. apply Hkept, Exists_exists. eauto.
  - intros j r' Hlt Hj Heq. apply Hearlier, Exists_exists. exists r'.
    split; [|done]. apply list_elem_of_lookup. exists j.
    by apply lookup_take_Some.
Qed.

(** X2.  A merge of lists whose rules carry ASCII key fields loses no
    rule when it returns: every existing rule whose key is not the default
    key is in the output, and every incoming rule has a rule with the same
    key in the output. *)
Theorem merge_loses_no_rule (existing new out : list rule) :
  Forall ascii_keyed existing → Forall ascii_keyed new →
  combine_lists existing new = Returns out →
  (∀ r, r ∈ existing → ¬ is_default r → r ∈ out)
  ∧ (∀ r, r ∈ new → ∃ r', r' ∈ out ∧ key_extractor r' = key_extractor r).
Proof.
  intros _ _ Hout. split; [|by apply (combine_lists_covers existing)].
  apply combine_lists_Returns in Hout as (added & -> & _).
  intros r Hr Hd. apply elem_of_app. left. by apply list_elem_of_filter.
Qed.

Lemma filter_all {A} (P : A → Prop) `{!∀ x, Decision (P x)} (l : list A) :
  Forall P l → filter P l = l.
Proof.
  induction 1 as [|x l Hx _ IH]; [done|]. by rewrite filter_cons_True, IH.
Qed.

Lemma add_new_all_seen new : ∀ combined seen,
  (∀ r, r ∈ new → ∃ k, key_extractor r = Returns k ∧ k ∈ seen) →
  add_new new combined seen = Returns combined.
Proof.
  induction new as [|r rest IH]; intros combined seen Hseen; simpl; [done|].
  destruct (Hseen r) as (k & -> & Hk); [left|]. simpl.
  rewrite decide_True by done. apply IH. intros r' Hr'. apply Hseen. by right.
Qed.

(** X3.  Merging the same incoming rules into the output of a merge
    changes nothing, when no incoming rule has the default key. *)
Theorem merge_again_adds_nothing (existing new out : list rule) :
  combine_lists existing new = Returns out →
  Forall (λ r, ¬ is_default r) new →
  combine_lists out new = Returns out.
Proof.
  intros Hout Hnew.
  pose proof (combine_lists_covers _ _ _ Hout) as Hcover.
  destruct (combine_lists_Returns _ _ _ Hout)
    as (added & -> & Hwk_ex & Hwk_new & Hsub & _).
  set (out := kept_existing existing ++ added) in *.
  assert (Forall (λ r, ¬ is_default r) out) as Hnd.
  { apply Forall_app. split; [apply kept_existing_not_default|].
    eapply Forall_forall. intros r Hr.
    eapply (proj1 (Forall_forall _ _) Hnew). by eapply sublist_subseteq. }
  assert (Forall well_keyed out) as Hwk.
  { apply Forall_app. split.
    - apply Forall_forall. intros r [_ Hr]%list_elem_of_filter.
      by eapply (proj1 (Forall_forall _ _) Hwk_ex).
    - apply Forall_forall. intros r Hr.
      eapply (proj1 (Forall_forall _ _) Hwk_new). by eapply sublist_subseteq. }
  unfold combine_lists.
  destruct (keep_existing_total out [] ∅ Hwk) as (c & s & Hkeep).
  rewrite Hkeep. simpl.
  apply keep_existing_Returns in Hkeep as (-> & _ & Hs).
  unfold kept_existing. rewrite (filter_all _ out Hnd). simpl.
  apply add_new_all_seen. intros r Hr.
  destruct (Hcover r Hr) as (r' & Hr' & Heq).
  assert (well_keyed r) as [k Hk]%key_extractor_total.
  { by eapply (proj1 (Forall_forall _ _) Hwk_new). }
  exists k. split; [done|]. apply Hs. right. exists r'. split; [|congruence].
  unfold kept_existing. by rewrite (filter_all _ out Hnd).
Qed.

Lemma tuple_of_Raises {A B} (f : A → result B) keys e :
  tuple_of f keys = Raises e →
  ∃ before key, before ++ [key] `prefix_of` keys
    ∧ Forall (λ key', ∃ x, f key' = Returns x) before
    ∧ f key = Raises e.
Proof.
  induction keys as [|key keys IH]; simpl; [done|].
  destruct (f key) as [x|e'] eqn:Hkey; simpl.
  - destruct (tuple_of f keys) as [t|e'] eqn:Hrest; simpl; [done|].
    intros [= ->]. destruct (IH eq_refl) as (before & key' & Hpre & Hbefore & Hraise).
    exists (key :: before), key'. split_and!; [|constructor; eauto|done].
    simpl. by apply prefix_cons.
  - intros [= ->]. exists [], key. split_and!; [|constructor|done].
    simpl. apply prefix_cons, prefix_nil.
Qed.

Lemma key_extractor_Raises (dic : rule) (e : exn) :
  key_extractor dic = Raises e →
  ∃ before key,
    before ++ [key] `prefix_of` key_fields
    ∧ Forall (λ key', ∃ s, dic !! key' = Some (VStr s)) before
    ∧ ((dic !! key = None ∧ e = KeyError (VStr key))
       ∨ ((dic !! key = Some VNone ∨ ∃ b, dic !! key = Some (VBool b))
          ∧ e = AttributeError "lower")).
Proof.
  intros (before & key & Hpre & Hbefore & Hraise)%tuple_of_Raises.
  exists before, key. split_and!; [done| |].
  - eapply Forall_impl; [exact Hbefore|]. simpl.
    intros key' [x (s & Hs & _)%lower_field_Returns]. eauto.
  - unfold lower_field in Hraise.
    destruct (dic !! key) as [[s| |b]|]; [done| | |];
      injection Hraise as <-; eauto.
Qed.

Lemma keep_existing_Raises existing : ∀ combined seen e,
  keep_existing existing combined seen = Raises e →
  ∃ l1 r l2, existing = l1 ++ r :: l2 ∧ Forall well_keyed l1
             ∧ key_extractor r = Raises e.
Proof.
  induction existing as [|r rest IH]; intros combined seen e; simpl; [done|].
  destruct (key_extractor r) as [k|e'] eqn:Hk; simpl.
  - assert (well_keyed r) as Hwk by (apply key_extractor_total; eauto).
    case_decide; intros (l1 & r' & l2 & -> & Hl1 & He)%IH;
      exists (r :: l1), r', l2; (split_and!; [done|by constructor|done]).
  - intros [= ->]. exists [], r, rest. split_and!; [done|constructor|done].
Qed.

Lemma add_new_Raises new : ∀ combined seen e,
  add_new new combined seen = Raises e →
  ∃ l1 r l2, new = l1 ++ r :: l2 ∧ Forall well_keyed l1
             ∧ key_extractor r = Raises e.
Proof.
  induction new as [|r rest IH]; intros combined seen e; simpl; [done|].
  destruct (key_extractor r) as [k|e'] eqn:Hk; simpl.
  - assert (well_keyed r) as Hwk by (apply key_extractor_total; eauto).
    case_decide; intros (l1 & r' & l2 & -> & Hl1 & He)%IH;
      exists (r :: l1), r', l2; (split_and!; [done|by constructor|done]).
  - intros [= ->]. exists [], r, rest. split_and!; [done|constructor|done].
Qed.

(** X4.  When the merge raises, the exception comes from the first rule,
    existing rules before incoming ones, that lacks a key field or holds a
    value that is not a string there; every rule before it is well formed,
    and in that rule every key field before the failing one is a string.
    A missing field gives [KeyError] of that field, a value that is not a
    string gives [AttributeError]. *)
Theorem combine_lists_raises (existing new : list rule) (e : exn) :
  combine_lists existing new = Raises e →
  ∃ l1 r l2 before key,
    existing ++ new = l1 ++ r :: l2
    ∧ Forall well_keyed l1
    ∧ before ++ [key] `prefix_of` key_fields
    ∧ Forall (λ key', ∃ s, r !! key' = Some (VStr s)) before
    ∧ ((r !! key = None ∧ e = KeyError (VStr key))
       ∨ ((r !! key = Some VNone ∨ ∃ b, r !! key = Some (VBool b))
          ∧ e = AttributeError "lower")).
Proof.
  intros Hraise.
  assert (∃ l1 r l2, existing ++ new = l1 ++ r :: l2 ∧ Forall well_keyed l1
                     ∧ key_extractor r = Raises e) as (l1 & r & l2 & Heq & Hl1 & Hr).
  { unfold combine_lists in Hraise.
    destruct (keep_existing existing [] ∅) as [[c s]|e'] eqn:Hkeep; simpl in Hraise.
    - apply keep_existing_Returns in Hkeep as (_ & Hwk & _).
      apply add_new_Raises in Hraise as (l1 & r & l2 & -> & Hl1 & Hr).
      exists (existing ++ l1), r, l2.
      split_and!; [by rewrite <-app_assoc|by apply Forall_app|done].
    - injection Hraise as ->.
      apply keep_existing_Raises in Hkeep as (l1 & r & l2 & -> & Hl1 & Hr).
      exists l1, r, (l2 ++ new). by rewrite <-app_assoc. }
  destruct (key_extractor_Raises r e Hr) as (before & key & Hpre & Hbefore & Hcase).
  exists l1, r, l2, before, key. by split_and!.
Qed.

Section Translation.
Context {R : Type} `{!Dashboard R}.
Implicit Types w : world R.

Lemma translate_rule_outcome rule w :
  (translate_rule rule w).2 = w
  ∧ match (translate_rule rule w).1 with
    | Returns rule' =>
        with_cidrs rule
        ∧ translation_of (policy_objects_name_to_id w)
            (policy_group_objects_name_to_id w) rule rule'
    | Raises e =>
        (rule !! "srcCidr" = None ∧ e = KeyError (VStr "srcCidr"))
        ∨ (is_Some (rule !! "srcCidr") ∧ rule !! "destCidr" = None
           ∧ e = KeyError (VStr "destCidr"))
    end.
Proof.
  unfold translate_rule.
  destruct (rule !! "srcCidr") as [src|] eqn:Hsrc; [|simpl; auto].
  rewrite bind_run. unfold translate at 1. rewrite bind_run. simpl.
  rewrite lookup_insert_ne by done.
  destruct (rule !! "destCidr") as [dest|] eqn:Hdest; simpl; [|eauto 6].
  split; [done|]. split; [by split; eauto|]. split_and!.
  - by rewrite lookup_insert_ne, lookup_insert_eq, Hsrc.
  - by rewrite lookup_insert_eq, Hdest.
  - intros key Hs Hd. by rewrite !lookup_insert_ne.
Qed.

(** X5.  The translation loop leaves the world as it is.  When it returns,
    every rule has both address fields and the result holds, position by
    position, the rule with its two address fields translated and all
    other fields unchanged.  When it raises, it is [KeyError] for the first
    address field missing in the first rule that lacks one. *)
Theorem translate_rules_outcome (l3_rules : list rule) (w : world R) :
  (translate_rules l3_rules w).2 = w
  ∧ match (translate_rules l3_rules w).1 with
    | Returns l3_rules' =>
        Forall with_cidrs l3_rules
        ∧ Forall2 (translation_of (policy_objects_name_to_id w)
                     (policy_group_objects_name_to_id w)) l3_rules l3_rules'
    | Raises e =>
        ∃ before rule after,
          l3_rules = before ++ rule :: after
          ∧ Forall with_cidrs before
          ∧ ((rule !! "srcCidr" = None ∧ e = KeyError (VStr "srcCidr"))
             ∨ (is_Some (rule !! "srcCidr") ∧ rule !! "destCidr" = None
                ∧ e = KeyError (VStr "destCidr")))
    end.
Proof.
  induction l3_rules as [|rule rest IH]; simpl; [by repeat split|].
  rewrite bind_run.
  destruct (translate_rule_outcome rule w) as [Hw Hrule].
  destruct (translate_rule rule w) as [[rule'|e] w1]; simpl in *; subst w1.
  - destruct Hrule as [Hcidrs Hrule]. rewrite bind_run.
    destruct IH as [Hw' IH].
    destruct (translate_rules rest w) as [[rest'|e] w2]; simpl in *; subst w2.
    + destruct IH as [Hall IH]. split; [done|]. split; by constructor.
    + split; [done|]. destruct IH as (before & rule0 & after & -> & Hbefore & He).
      exists (rule :: before), rule0, after. split_and!; [done|by constructor|done].
  - split; [done|]. exists [], rule, rest. split_and!; [done|constructor|done].
Qed.
End Translation.

Lemma name_to_id_snoc catalog e :
  name_to_id (catalog ++ [e])
  = <[VStr (entity_name e) := entity_id e]> (name_to_id catalog).
Proof. unfold name_to_id. by rewrite foldl_snoc. Qed.

(** X6.  The mapping built from a catalog listing maps exactly the names
    the catalog lists, and a name listed several times is mapped to the
    identifier of its last entry. *)
Theorem name_to_id_last_wins (catalog : list entity) :
  (∀ key, is_Some (name_to_id catalog !! key)
          ↔ ∃ e, e ∈ catalog ∧ key = VStr (entity_name e))
  ∧ (∀ before e after,
       catalog = before ++ e :: after →
       (∀ e', e' ∈ after → entity_name e' ≠ entity_name e) →
       name_to_id catalog !! VStr (entity_name e) = Some (entity_id e)).
Proof.
  induction catalog as [|e0 catalog [IHdom IHlast]] using rev_ind.
  - split.
    + intros key. unfold name_to_id. simpl. rewrite lookup_empty. split.
      * by intros [? ?].
      * by intros (e & ?%elem_of_nil & _).
    + intros [|b0 before] e after Heq; discriminate Heq.
  - split.
    + intros key. rewrite name_to_id_snoc, lookup_insert_is_Some, IHdom. split.
      * intros [<-|[_ (e & He & ->)]].
        -- exists e0. split; [|done]. apply elem_of_app. right. left.
        -- exists e. split; [|done]. apply elem_of_app. by left.
      * intros (e & [He|He]%elem_of_app & ->).
        -- destruct (decide (VStr (entity_name e0) = VStr (entity_name e)));
             [by left|right; eauto].
        -- apply list_elem_of_singleton in He as ->. by left.
    + intros before e after Heq Hafter. rewrite name_to_id_snoc.
      destruct after as [|e1 after _] using rev_ind.
      * apply app_inj_tail in Heq as [-> ->]. by rewrite lookup_insert_eq.
      * rewrite app_comm_cons, app_assoc in Heq.
        apply app_inj_tail in Heq as [-> ->].
        rewrite lookup_insert_ne.
        -- apply (IHlast before e after); [done|].
           intros e' He'. apply Hafter, elem_of_app. by left.
        -- intros [= Heq]. apply (Hafter e1); [|done].
           apply elem_of_app. right. left.
Qed.

Section Api.
Context {R : Type} `{!Dashboard R}.
Implicit Types w : world R.

(** X7.  Start of the program.  When listing the policy objects, or then
    the groups, raises, the program raises with that message before [main]
    runs, and the mappings are untouched.  When both listings return, the
    program is [main] run from the mappings built from the two listings,
    whatever the mappings held before. *)
Theorem startup_outcome (c : config) (i : inputs) (w : world R) :
  ∀ r1 remote1,
    getOrganizationPolicyObjects (remote w) = (r1, remote1) →
    (∀ msg, failure_message r1 = Some msg →
       (program c i w).1 = Raises (DashboardError msg)
       ∧ history (program c i w).2 = history w ++ [Called ListPolicyObjects false]
       ∧ mappings (program c i w).2 = mappings w)
    ∧ (∀ policy_objects r2 remote2,
         r1 = Success policy_objects →
         getOrganizationPolicyObjectsGroups remote1 = (r2, remote2) →
         (∀ msg, failure_message r2 = Some msg →
            (program c i w).1 = Raises (DashboardError msg)
            ∧ history (program c i w).2
              = history w ++ [Called ListPolicyObjects true;
                              Called ListPolicyObjectGroups false]
            ∧ mappings (program c i w).2 = mappings w)
         ∧ (∀ policy_object_groups,
              r2 = Success policy_object_groups →
              program c i w
              = main c i
                  {| remote := remote2;
                     policy_objects_name_to_id := name_to_id policy_objects;
                     policy_group_objects_name_to_id :=
                       name_to_id policy_object_groups;
                     history := history w ++ [Called ListPolicyObjects true;
                                              Called ListPolicyObjectGroups true] |})).
Proof.
  intros r1 remote1 H1. unfold program, MERAKI_API_init.
  rewrite !bind_run. unfold sdk. rewrite H1. simpl. split.
  - intros msg Hmsg. by destruct r1 as [?|? msg'|msg']; simplify_eq/=.
  - intros policy_objects r2 remote2 -> H2. rewrite !bind_run. simpl.
    rewrite H2. simpl. split.
    + intros msg Hmsg. destruct r2 as [?|? msg'|msg']; simplify_eq/=;
        by rewrite <-app_assoc.
    + intros policy_object_groups ->. simpl. by rewrite <-app_assoc.
Qed.

Lemma selected_networks c response :
  let appliance_networks :=
    if bool_decide (0 < length (NETWORK_NAMES c))
    then filter (λ network, "appliance" ∈ productTypes network
                            ∧ net_name network ∈ NETWORK_NAMES c) response
    else filter (λ network, "appliance" ∈ productTypes network) response in
  appliance_networks `sublist_of` response
  ∧ ∀ network,
      network ∈ appliance_networks
      ↔ network ∈ response
        ∧ "appliance" ∈ productTypes network
        ∧ (NETWORK_NAMES c = [] ∨ net_name network ∈ NETWORK_NAMES c).
Proof.
  simpl. case_bool_decide as Hlen.
  - split; [apply sublist_filter|]. intros network.
    rewrite list_elem_of_filter. split.
    + intros [[? ?] ?]. auto.
    + intros (? & ? & [Hnil|?]); [|done]. rewrite Hnil in Hlen. simpl in Hlen. lia.
  - split; [apply sublist_filter|]. intros network.
    rewrite list_elem_of_filter. split.
    + intros [? ?]. split_and!; [done..|]. left.
      destruct (NETWORK_NAMES c); [done|]. simpl in Hlen. lia.
    + intros (? & ? & _). done.
Qed.

(** X8.  When the SDK lists the networks, the wrapper answers the listed
    networks that have the product type [appliance] and, if the
    configuration names networks, one of those names; they keep the order
    of the listing. *)
Theorem get_org_appliance_networks_filter (c : config) (w : world R) :
  ∀ response remote',
    getOrganizationNetworks (remote w) = (Success response, remote') →
    ∃ appliance_networks,
      (get_org_appliance_networks c w).1 = Returns (None, Payload appliance_networks)
      ∧ appliance_networks `sublist_of` response
      ∧ ∀ network,
          network ∈ appliance_networks
          ↔ network ∈ response
            ∧ "appliance" ∈ productTypes network
            ∧ (NETWORK_NAMES c = [] ∨ net_name network ∈ NETWORK_NAMES c).
Proof.
  intros response remote' Hsdk. unfold get_org_appliance_networks.
  rewrite bind_run. unfold sdk. rewrite Hsdk. simpl.
  eexists. split; [done|]. apply selected_networks.
Qed.

Lemma reports_simple {A} call (op : R → sdk_result A * R) w :
  reports call w
    ((r ← sdk call op;
      match r with
      | Success response => mret (None, Payload response)
      | APIError status msg => mret (status, Message msg)
      | SDKError msg => mret (Some "500", Message msg)
      end) w).
Proof.
  rewrite bind_run. unfold sdk.
  destruct (op (remote w)) as [[response|status msg|msg] remote']; simpl.
  - exists None, (Payload response), true. split_and!; [done..| |]; [done|].
    intros payload _. done.
  - exists status, (Message msg), false. split_and!; [done..| |]; [eauto|done].
  - exists (Some "500"), (Message msg), false. split_and!; [done..| |]; [eauto|done].
Qed.

(** X9.  No wrapper of [MERAKI_API] raises: each returns a pair, having
    made exactly one SDK call; when the SDK raised, the pair holds the
    message and no mapping has changed; a payload is answered only with the
    error [None] and only when the SDK returned. *)
Theorem wrappers_report (w : world R) (c : config) (cfg : payload)
    (network_id : string) (l3_rules : list rule) :
  reports ListNetworks w (get_org_appliance_networks c w)
  ∧ reports (CreatePolicyObject cfg) w (create_policy_objects cfg w)
  ∧ reports (CreatePolicyObjectGroup cfg) w (create_policy_object_groups cfg w)
  ∧ reports (GetRules network_id) w (get_l3_outbound_rules network_id w)
  ∧ reports (UpdateRules network_id l3_rules) w
      (update_l3_outbound_rules network_id l3_rules w).
Proof.
  split_and!.
  - unfold get_org_appliance_networks. rewrite bind_run. unfold sdk.
    destruct (getOrganizationNetworks (remote w)) as [[response|status msg|msg] remote'];
      simpl.
    + eexists None, (Payload _), true. split_and!; [done..| |]; [done|].
      intros payload _. done.
    + exists status, (Message msg), false. split_and!; [done..| |]; [eauto|done].
    + exists (Some "500"), (Message msg), false.
      split_and!; [done..| |]; [eauto|done].
  - unfold create_policy_objects. rewrite bind_run. unfold sdk.
    destruct (createOrganizationPolicyObject cfg (remote w))
      as [[response|status msg|msg] remote']; simpl.
    + destruct (cfg !! "name") as [[name|ids]|]; simpl.
      * exists None, (Payload response), true. split_and!; [done..| |]; [done|].
        intros payload _. done.
      * eexists (Some "500"), (Message _), true. split_and!; [done..| |]; done.
      * eexists (Some "500"), (Message _), true. split_and!; [done..| |]; done.
    + exists status, (Message msg), false. split_and!; [done..| |]; [eauto|done].
    + exists (Some "500"), (Message msg), false.
      split_and!; [done..| |]; [eauto|done].
  - unfold create_policy_object_groups. rewrite bind_run. unfold sdk.
    destruct (createOrganizationPolicyObjectsGroup cfg (remote w))
      as [[response|status msg|msg] remote']; simpl.
    + destruct (cfg !! "name") as [[name|ids]|]; simpl.
      * exists None, (Payload response), true. split_and!; [done..| |]; [done|].
        intros payload _. done.
      * eexists (Some "500"), (Message _), true. split_and!; [done..| |]; done.
      * eexists (Some "500"), (Message _), true. split_and!; [done..| |]; done.
    + exists status, (Message msg), false. split_and!; [done..| |]; [eauto|done].
    + exists (Some "500"), (Message msg), false.
      split_and!; [done..| |]; [eauto|done].
  - apply reports_simple.
  - apply reports_simple.
Qed.
End Api.

Section Driver2.
Context {R : Type} `{!Dashboard R}.
Implicit Types w : world R.

Lemma pushes_app h1 h2 : pushes (h1 ++ h2) = pushes h1 ++ pushes h2.
Proof. apply omap_app. Qed.

Lemma push_history network l3_rules w :
  (push network l3_rules w).1 = Returns ()
  ∧ ∃ returned l,
      history (push network l3_rules w).2
      = history w ++ [Called (UpdateRules (net_id network) l3_rules) returned;
                      Printed l].
Proof.
  unfold push, update_l3_outbound_rules. rewrite !bind_run. unfold sdk.
  destruct (updateNetworkApplianceFirewallL3FirewallRules _ _ _)
    as [[response|status msg|msg] remote']; simpl.
  - rewrite <-app_assoc. eauto.
  - destruct (truthy status); simpl; rewrite <-app_assoc; eauto.
  - rewrite <-app_assoc. eauto.
Qed.

(** X13.  In merge mode, when the merge for a network raises, the loop
    raises that exception: the network's rules have been fetched, no update
    is sent to it, and the networks after it are not visited. *)
Theorem merge_failure_stops_loop (net : network) (rest : list (network + ascii))
    (l3_rules existing_rules : list rule) (e : exn) (remote' : R) (w : world R) :
  getNetworkApplianceFirewallL3FirewallRules (net_id net) (remote w)
  = (Success existing_rules, remote') →
  combine_lists existing_rules l3_rules = Raises e →
  (for_each_network false (inl net :: rest) l3_rules w).1 = Raises e
  ∧ history (for_each_network false (inl net :: rest) l3_rules w).2
    = history w ++ [Called (GetRules (net_id net)) true].
Proof.
  intros Hget Hmerge. simpl. unfold get_l3_outbound_rules.
  rewrite !bind_run. unfold sdk. rewrite Hget. simpl. by rewrite Hmerge.
Qed.

Lemma create_and_report_calls cfg w :
  calls (history (create_and_report cfg w).2)
  = calls (history w) ++ [CreatePolicyObject cfg]
  ∧ policy_group_objects_name_to_id (create_and_report cfg w).2
    = policy_group_objects_name_to_id w.
Proof.
  unfold create_and_report, create_policy_objects. rewrite !bind_run. unfold sdk.
  destruct (createOrganizationPolicyObject cfg (remote w))
    as [[response|status msg|msg] remote']; simpl.
  - destruct (cfg !! "name") as [[name|ids]|]; simpl;
      rewrite ?calls_app; simpl; by rewrite ?app_nil_r.
  - destruct (truthy status); simpl; [destruct (cfg !! "name")|]; simpl;
      rewrite ?calls_app; simpl; by rewrite ?app_nil_r.
  - destruct (cfg !! "name"); simpl; rewrite ?calls_app; simpl;
      by rewrite ?app_nil_r.
Qed.

(** X14.  The SDK calls of one row of the object table.  Without a group
    name, or with an empty one, the row is sent as it is, the empty group
    cell included.  With a group that is mapped, the row is sent without
    its group cell and with the mapped identifier as its only group; no
    group is created.  With a group that is not mapped and whose creation
    succeeds, the group is created first with the name and the category
    [NetworkObjectGroup], mapped to the new identifier, and the row is sent
    with that identifier. *)
Theorem provision_calls (policy_object : row) (w : world R) :
  (policy_object !! "_group_name" = None
   ∨ policy_object !! "_group_name" = Some (VStr "") →
   calls (history (provision policy_object w).2)
   = calls (history w) ++ [CreatePolicyObject (Cell <$> policy_object)]
   ∧ policy_group_objects_name_to_id (provision policy_object w).2
     = policy_group_objects_name_to_id w)
  ∧ (∀ group_name group_id,
       policy_object !! "_group_name" = Some group_name →
       group_name ≠ VStr "" →
       policy_group_objects_name_to_id w !! group_name = Some group_id →
       calls (history (provision policy_object w).2)
       = calls (history w)
         ++ [CreatePolicyObject
               (<["groupIds" := Ids [group_id]]>
                  (delete "_group_name" (Cell <$> policy_object)))]
       ∧ policy_group_objects_name_to_id (provision policy_object w).2
         = policy_group_objects_name_to_id w)
  ∧ (∀ group_name response remote',
       policy_object !! "_group_name" = Some group_name →
       group_name ≠ VStr "" →
       policy_group_objects_name_to_id w !! group_name = None →
       createOrganizationPolicyObjectsGroup
         {[ "name" := Cell group_name;
            "category" := Cell (VStr "NetworkObjectGroup") ]} (remote w)
       = (Success response, remote') →
       calls (history (provision policy_object w).2)
       = calls (history w)
         ++ [CreatePolicyObjectGroup
               {[ "name" := Cell group_name;
                  "category" := Cell (VStr "NetworkObjectGroup") ]};
             CreatePolicyObject
               (<["groupIds" := Ids [entity_id response]]>
                  (delete "_group_name" (Cell <$> policy_object)))]
       ∧ policy_group_objects_name_to_id (provision policy_object w).2
         = <[group_name := entity_id response]>
             (policy_group_objects_name_to_id w)).
Proof.
  split_and!.
  - intros [Hnone|Hempty]; unfold provision.
    + rewrite Hnone. apply create_and_report_calls.
    + rewrite Hempty. rewrite decide_False by (intros Hne; by apply Hne).
      apply create_and_report_calls.
  - intros group_name group_id Hgroup Hne Hid. unfold provision.
    rewrite Hgroup. rewrite decide_True by done.
    rewrite bind_run. unfold ensure_group. rewrite bind_run. simpl.
    rewrite decide_True by (rewrite Hid; eauto). simpl.
    rewrite bind_run. simpl. rewrite Hid. apply create_and_report_calls.
  - intros group_name response remote' Hgroup Hne Hnew Hsdk. unfold provision.
    rewrite Hgroup. rewrite decide_True by done.
    rewrite bind_run. unfold ensure_group. rewrite bind_run. simpl.
    rewrite decide_False by (rewrite Hnew; by intros [? ?]).
    rewrite bind_run. unfold create_policy_object_groups. rewrite bind_run.
    unfold sdk. rewrite Hsdk. simpl. rewrite lookup_insert_eq.
    repeat (rewrite bind_run; simpl). rewrite lookup_insert_eq.
    match goal with |- context [create_and_report ?cfg ?w1] =>
      destruct (create_and_report_calls cfg w1) as [Hcalls Hgroups]
    end.
    rewrite Hcalls, Hgroups. simpl. rewrite !calls_app. simpl.
    by rewrite app_nil_r, <-app_assoc.
Qed.

(** X15.  An object without a name aborts the run: whether the SDK
    accepts the creation or fails with a truthy code, reporting the outcome
    raises [KeyError] for [name], after the creation call has been made;
    no mapping changes. *)
Theorem nameless_object_aborts (cfg : payload) (w : world R) :
  cfg !! "name" = None →
  ∀ r remote',
    createOrganizationPolicyObject cfg (remote w) = (r, remote') →
    (∀ msg, r ≠ APIError None msg ∧ r ≠ APIError (Some "") msg) →
    (create_and_report cfg w).1 = Raises (KeyError (VStr "name"))
    ∧ history (create_and_report cfg w).2
      = history w
        ++ [Called (CreatePolicyObject cfg) (if r is Success _ then true else false)]
    ∧ mappings (create_and_report cfg w).2 = mappings w.
Proof.
  intros Hname r remote' Hsdk Htruthy.
  unfold create_and_report, create_policy_objects. rewrite !bind_run. unfold sdk.
  rewrite Hsdk. destruct r as [response|status msg|msg]; simpl.
  - by rewrite Hname.
  - assert (truthy status = true) as ->.
    { destruct status as [code|]; [|by destruct (Htruthy msg) as [[] _]].
      simpl. case_bool_decide as Hcode; [|done]. subst code.
      by destruct (Htruthy msg) as [_ []]. }
    by rewrite Hname.
  - by rewrite Hname.
Qed.
End Driver2.

Section Phases.
Context {R : Type} `{!Dashboard R}.
Implicit Types w : world R.

Lemma calls_calling P evs : Forall (calling P) evs → Forall P (calls evs).
Proof.
  induction 1 as [|e evs He _ IH]; [constructor|].
  unfold calls. simpl. destruct e as [c returned| |]; simpl; [|done..].
  constructor; [by eapply He|done].
Qed.

Lemma keeps_emits P S w w' :
  keeps (calling P) S w w' → emits (Forall P) w w'.
Proof.
  intros (evs & Hevs & Hq & _). exists (calls evs).
  split; [by rewrite Hevs, calls_app|by apply calls_calling].
Qed.

Lemma emits_weaken (L L' : list call → Prop) w w' :
  (∀ cs, L cs → L' cs) → emits L w w' → emits L' w w'.
Proof. intros HL (cs & ? & ?). exists cs. auto. Qed.

Lemma emits_bind {A B} (L1 L2 L : list call → Prop) (m : run R A) (f : A → run R B) :
  (∀ w, emits L1 w (m w).2) →
  (∀ a w, emits L2 w (f a w).2) →
  (∀ cs, L1 cs → L cs) →
  (∀ cs1 cs2, L1 cs1 → L2 cs2 → L (cs1 ++ cs2)) →
  ∀ w, emits L w ((m ≫= f) w).2.
Proof.
  intros Hm Hf Hstop Hseq w. rewrite bind_run. specialize (Hm w).
  destruct (m w) as [[a|e] w1]; simpl in *.
  - destruct Hm as (cs1 & H1 & HL1). destruct (Hf a w1) as (cs2 & H2 & HL2).
    exists (cs1 ++ cs2). split; [by rewrite H2, H1, app_assoc|auto].
  - eapply emits_weaken; [exact Hstop|done].
Qed.

Lemma calling_printed P l : calling P (Printed l).
Proof. by intros ???. Qed.

Lemma calling_asked P : calling P Asked.
Proof. by intros ???. Qed.

Lemma silent_keeps {A} (m : run R A) :
  preserves (keeps (calling (λ _, False)) any_mappings) m → silent m.
Proof.
  intros Hm w. eapply emits_weaken; [|eapply keeps_emits, Hm].
  intros cs Hcs. destruct Hcs as [|c cs []]. done.
Qed.

Lemma silent_print l : silent (R:=R) (print l).
Proof. apply silent_keeps, keeps_print; [apply _|apply calling_printed]. Qed.

Lemma silent_bind {A B} (L : list call → Prop) (m : run R A) (f : A → run R B) :
  silent m → L [] → (∀ a w, emits L w (f a w).2) →
  ∀ w, emits L w ((m ≫= f) w).2.
Proof.
  intros Hm Hnil Hf. eapply emits_bind; [exact Hm|exact Hf|..].
  - by intros cs ->.
  - by intros cs1 cs2 ->.
Qed.

Lemma provisioning_emits policy_objects w :
  emits (Forall is_creation) w (for_each provision policy_objects w).2.
Proof.
  assert (preserves (keeps (R:=R) (calling (λ c, is_creation c = true)) any_mappings)
            (for_each provision policy_objects)) as Hkeeps.
  { apply preserves_for_each; [apply _|]. intros policy_object.
    apply keeps_provision; [apply _|apply calling_printed| | | |]; try done.
    - by intros cfg returned ?? [= <- _].
    - by intros cfg returned ?? [= <- _]. }
  eapply emits_weaken; [|eapply keeps_emits, Hkeeps].
  intros cs Hcs. eapply Forall_impl; [exact Hcs|]. by intros c ->.
Qed.

Lemma loop_emits overwrite items : ∀ l3_rules w,
  emits (Forall is_rule_call) w (for_each_network overwrite items l3_rules w).2.
Proof.
  assert (∀ l3_rules,
    preserves (keeps (R:=R) (calling (λ c, is_rule_call c = true)) any_mappings)
      (for_each_network overwrite items l3_rules)) as Hkeeps.
  { induction items as [|item rest IH]; intros l3_rules; simpl.
    - preserve_with idtac.
    - apply preserves_bind; [apply _| |intros ?; apply IH].
      preserve_with ltac:(unfold_driver; unfold_wrappers);
        first [apply calling_printed | by intros ?? [= <- _]]. }
  intros l3_rules w. eapply emits_weaken; [|eapply keeps_emits, Hkeeps].
  intros cs Hcs. eapply Forall_impl; [exact Hcs|]. by intros c ->.
Qed.

Lemma listing_emits c w :
  emits (λ cs, cs = [ListNetworks]) w (get_org_appliance_networks c w).2.
Proof.
  unfold get_org_appliance_networks. rewrite bind_run. unfold sdk.
  destruct (getOrganizationNetworks (remote w)) as [[response|status msg|msg] remote'];
    simpl; exists [ListNetworks]; (split; [|done]); unfold record; simpl;
    by rewrite calls_app.
Qed.

Lemma apply_l3_rules_emits c answer l3_rules w :
  emits step2_calls w (apply_l3_rules c answer l3_rules w).2.
Proof.
  revert w. unfold apply_l3_rules.
  apply silent_bind; [|by left|intros l3_rules' w].
  { apply silent_keeps, keeps_translate_rules. apply _. }
  revert w. apply silent_bind; [apply silent_print|by left|intros _ w].
  revert w. eapply emits_bind; [apply listing_emits| |..].
  - intros [error response] w. revert w.
    apply (silent_bind (Forall is_rule_call)); [|constructor|].
    { destruct (truthy error); [apply silent_print|]. apply silent_keeps.
      preserve_with unfold_driver; apply calling_printed. }
    intros _ w. revert w.
    apply (silent_bind (Forall is_rule_call)); [|constructor|].
    { apply silent_keeps, keeps_ask; [apply _|apply calling_asked]. }
    intros overwrite w. apply loop_emits.
  - intros cs ->. right. exists []. by split.
  - intros cs1 cs2 -> Hcs2. right. exists cs2. by split.
Qed.

(** X16.  The SDK calls of a run of [main] come in two phases: first
    creations of objects and groups only; then, if step 2 is reached, one
    listing of the networks followed by fetches and updates of rules
    only. *)
Theorem main_phases (c : config) (i : inputs) (w : world R) :
  ∃ step1 step2,
    calls (history (main c i w).2) = calls (history w) ++ step1 ++ step2
    ∧ Forall is_creation step1
    ∧ (step2 = []
       ∨ ∃ rest, step2 = ListNetworks :: rest ∧ Forall is_rule_call rest).
Proof.
  assert (emits (λ cs, ∃ step1 step2, cs = step1 ++ step2
                        ∧ Forall is_creation step1 ∧ step2_calls step2)
            w (main c i w).2) as (cs & Hcs & step1 & step2 & -> & H1 & H2).
  { set (L := λ cs, ∃ step1 step2, cs = step1 ++ step2
                      ∧ Forall is_creation step1 ∧ step2_calls step2).
    assert (L []) as Hnil by (exists [], []; split_and!; [done|constructor|by left]).
    revert w. unfold main.
    apply silent_bind; [apply silent_print|done|intros _ w].
    revert w. apply silent_bind; [apply silent_print|done|intros _ w].
    destruct (policy_objects_csv i) as [policy_objects|].
    2: { eapply emits_weaken; [|apply silent_print]. by intros cs ->. }
    revert w. apply silent_bind; [apply silent_print|done|intros _ w].
    revert w. apply silent_bind; [apply silent_print|done|intros _ w].
    revert w. eapply (emits_bind (Forall is_creation) step2_calls);
      [apply provisioning_emits| |..].
    - intros _ w. destruct (l3_outbound_rules_csv i) as [l3_rules|].
      + revert w. apply silent_bind; [apply silent_print|by left|intros _ w].
        apply apply_l3_rules_emits.
      + eapply emits_weaken; [|apply silent_print]. intros cs ->. by left.
    - intros cs Hcs. exists cs, []. rewrite app_nil_r. split_and!; [done..|by left].
    - intros cs1 cs2 Hcs1 Hcs2. by exists cs1, cs2. }
  exists step1, step2. by split_and!.
Qed.

Lemma covers_trans table rules rules' :
  covers table rules → covers rules rules' → covers table rules'.
Proof.
  intros H1 H2 r Hr. destruct (H1 r Hr) as (r1 & Hr1 & Heq1).
  destruct (H2 r1 Hr1) as (r2 & Hr2 & Heq2). exists r2. split; [done|congruence].
Qed.

Lemma apply_rules_covers table overwrite item l3_rules w :
  covers table l3_rules →
  ∃ evs,
    history (apply_rules overwrite item l3_rules w).2 = history w ++ evs
    ∧ Forall (λ p, covers table p.2) (pushes evs)
    ∧ ∀ l3_rules', (apply_rules overwrite item l3_rules w).1 = Returns l3_rules' →
                   covers table l3_rules'.
Proof.
  intros Hcov. unfold apply_rules. destruct item as [net|char].
  2: { exists []. rewrite app_nil_r. by split_and!. }
  destruct overwrite.
  - rewrite bind_run.
    destruct (push_history net l3_rules w) as (Hret & returned & l & Hhist).
    destruct (push net l3_rules w) as [[[]|e] w1]; [|done]. simpl in *.
    eexists. split; [exact Hhist|]. split.
    + simpl. by repeat constructor.
    + by intros ? [= <-].
  - unfold get_l3_outbound_rules. rewrite !bind_run. unfold sdk.
    destruct (getNetworkApplianceFirewallL3FirewallRules (net_id net) (remote w))
      as [[existing_rules|status msg|msg] remote']; simpl.
    + destruct (combine_lists existing_rules l3_rules) as [merged|e] eqn:Hmerge.
      * rewrite bind_run.
        match goal with |- context [push net merged ?w1] =>
          destruct (push_history net merged w1) as (Hret & returned & l & Hhist);
          destruct (push net merged w1) as [[[]|e] w2]; [|done]
        end.
        simpl in *. rewrite Hhist. simpl. rewrite <-app_assoc.
        assert (covers table merged) as Hmerged.
        { eapply covers_trans; [exact Hcov|]. by eapply combine_lists_covers. }
        eexists. split; [done|]. split.
        -- simpl. by repeat constructor.
        -- by intros ? [= <-].
      * simpl. eexists. split; [done|]. split; [constructor|done].
    + destruct (truthy status); simpl.
      * rewrite <-app_assoc. eexists. split; [done|]. split; [constructor|].
        by intros ? [= <-].
      * eexists. split; [done|]. split; [constructor|done].
    + rewrite <-app_assoc. eexists. split; [done|]. split; [constructor|].
      by intros ? [= <-].
Qed.

Lemma for_each_network_covers table overwrite items : ∀ l3_rules w,
  covers table l3_rules →
  ∃ evs,
    history (for_each_network overwrite items l3_rules w).2 = history w ++ evs
    ∧ Forall (λ p, covers table p.2) (pushes evs).
Proof.
  induction items as [|item rest IH]; intros l3 w Hcov; simpl.
  - exists []. by rewrite app_nil_r.
  - rewrite bind_run.
    destruct (apply_rules_covers table overwrite item l3 w Hcov)
      as (evs1 & Hevs1 & Hp1 & Hnext).
    destruct (apply_rules overwrite item l3 w) as [[l3'|e] w1]; simpl in *.
    + destruct (IH l3' w1) as (evs2 & Hevs2 & Hp2); [by apply Hnext|].
      exists (evs1 ++ evs2). split; [by rewrite Hevs2, Hevs1, app_assoc|].
      rewrite pushes_app. by apply Forall_app.
    + eauto.
Qed.

(** X17.  When the rules the loop starts with and the rules of every list
    the dashboard returns carry ASCII key fields: whatever the mode and
    the outcome of the SDK calls, every rule list sent to a network holds,
    for each rule of the list the loop started with, a rule with the same
    key. *)
Theorem pushes_cover_rules (overwrite : bool) (items : list (network + ascii))
    (l3_rules : list rule) (w : world R) :
  Forall ascii_keyed l3_rules →
  (∀ network_id dashboard rules dashboard',
     getNetworkApplianceFirewallL3FirewallRules network_id dashboard
     = (Success rules, dashboard') →
     Forall ascii_keyed rules) →
  ∃ evs,
    history (for_each_network overwrite items l3_rules w).2 = history w ++ evs
    ∧ Forall (λ p, covers l3_rules p.2) (pushes evs).
Proof.
  intros _ _. apply for_each_network_covers. intros r Hr. eauto.
Qed.
End Phases.

Section Overwrite.
Context {R : Type} `{!Dashboard R}.
Implicit Types w : world R.

Lemma translate_rules_world l3_rules w : (translate_rules l3_rules w).2 = w.
Proof.
  induction l3_rules as [|rule rest IH]; simpl; [done|]. rewrite bind_run.
  destruct (translate_rule_outcome rule w) as [Hw _].
  destruct (translate_rule rule w) as [[rule'|e] w1]; simpl in *; subst w1; [|done].
  rewrite bind_run.
  destruct (translate_rules rest w) as [[rest'|e] w2]; simpl in *; by subst w2.
Qed.

(** X10.  Step 2 in overwrite mode, when the translation returns and the
    networks are listed: it returns, and its SDK calls are the listing
    followed by one rule update per selected appliance network, in listing
    order, each carrying the translated table; nothing is fetched. *)
Theorem overwrite_sends_translated_table (c : config) (l3_rules table : list rule)
    (response : list network) (remote' : R) (w : world R) :
  (translate_rules l3_rules w).1 = Returns table →
  getOrganizationNetworks (remote w) = (Success response, remote') →
  ∃ appliance_networks,
    (apply_l3_rules c true l3_rules w).1 = Returns ()
    ∧ calls (history (apply_l3_rules c true l3_rules w).2)
      = calls (history w)
        ++ ListNetworks
           :: ((λ network, UpdateRules (net_id network) table) <$> appliance_networks)
    ∧ appliance_networks `sublist_of` response
    ∧ ∀ network,
        network ∈ appliance_networks
        ↔ network ∈ response
          ∧ "appliance" ∈ productTypes network
          ∧ (NETWORK_NAMES c = [] ∨ net_name network ∈ NETWORK_NAMES c).
Proof.
  intros Htable Hsdk.
  destruct (selected_networks c response) as [Hsub Hin].
  eexists. split_and!; [| |exact Hsub|exact Hin].
  all: unfold apply_l3_rules; rewrite bind_run;
    pose proof (translate_rules_world l3_rules w) as Hw;
    destruct (translate_rules l3_rules w) as [[table'|e] w1]; simpl in *;
    [|done..]; injection Htable as ->; subst w1;
    repeat (rewrite bind_run; simpl);
    unfold get_org_appliance_networks; rewrite bind_run; unfold sdk; simpl;
    rewrite Hsdk; simpl; repeat (rewrite bind_run; simpl).
  - match goal with |- (for_each_network true (inl <$> ?nets) table ?w1).1 = _ =>
      apply (overwrite_pushes_table nets table w1)
    end.
  - match goal with |- calls (history (for_each_network true (inl <$> ?nets) table ?w1).2) = _ =>
      rewrite (proj2 (overwrite_pushes_table nets table w1))
    end.
    simpl. rewrite !calls_app. simpl. by rewrite !app_nil_r, <-app_assoc.
Qed.
End Overwrite.

Lemma overwrite_sends_translated_table_witness :
  ∃ appliance_networks,
    (apply_l3_rules only_branch_2 true [allow_https] (start two_branches)).1
    = Returns ()
    ∧ calls (history (apply_l3_rules only_branch_2 true [allow_https]
                        (start two_branches)).2)
      = calls [] ++ ListNetworks
          :: ((λ network, UpdateRules (net_id network) [allow_https])
                <$> appliance_networks).
Proof.
  assert ((translate_rules [allow_https] (start two_branches)).1
          = Returns [allow_https]) as Htable by compute_done.
  assert (getOrganizationNetworks (remote (start two_branches))
          = (Success [branch_1; branch_2], two_branches)) as Hsdk by reflexivity.
  destruct (overwrite_sends_translated_table only_branch_2 [allow_https]
              [allow_https] _ _ (start two_branches) Htable Hsdk)
    as (appliance_networks & Hret & Hcalls & _).
  exists appliance_networks. by split.
Defined.

(** *** Witnesses *)

Lemma combine_lists_nil_r_witness :
  Forall well_keyed [allow_any; deny_ssh]
  ∧ combine_lists [allow_any; deny_ssh] []
    = Returns (kept_existing [allow_any; deny_ssh]).
Proof.
  assert (Forall well_keyed [allow_any; deny_ssh]) as Hex by well_keyed.
  split; [done|]. exact (combine_lists_nil_r _ Hex).
Defined.

Lemma merge_loses_no_rule_witness :
  Forall ascii_keyed [deny_ssh]
  ∧ Forall ascii_keyed [deny_ssh; allow_https]
  ∧ combine_lists [deny_ssh] [deny_ssh; allow_https] = Returns [deny_ssh; allow_https]
  ∧ ∃ r', r' ∈ [deny_ssh; allow_https]
          ∧ key_extractor r' = key_extractor allow_https.
Proof.
  assert (Forall ascii_keyed [deny_ssh]) as Hex by ascii_keyed.
  assert (Forall ascii_keyed [deny_ssh; allow_https]) as Hnew by ascii_keyed.
  assert (combine_lists [deny_ssh] [deny_ssh; allow_https]
          = Returns [deny_ssh; allow_https]) as Hout by compute_done.
  split_and!; [done..|].
  apply (proj2 (merge_loses_no_rule _ _ _ Hex Hnew Hout) allow_https). right. left.
Defined.

Lemma pushes_cover_rules_witness :
  let w : world steady :=
    {| remote := Steady;
       policy_objects_name_to_id := ∅;
       policy_group_objects_name_to_id := ∅;
       history := [] |} in
  Forall ascii_keyed [allow_https]
  ∧ ∃ evs,
      history (for_each_network false [inl branch_1; inl branch_2] [allow_https] w).2
      = [] ++ evs
      ∧ Forall (λ p, covers [allow_https] p.2) (pushes evs).
Proof.
  intros w.
  assert (Forall ascii_keyed [allow_https]) as Htable by ascii_keyed.
  split; [done|].
  apply (pushes_cover_rules false [inl branch_1; inl branch_2] [allow_https] w Htable).
  intros network_id dashboard rules dashboard' [= <- _]. ascii_keyed.
Defined.

Lemma merge_again_adds_nothing_witness :
  combine_lists [deny_ssh] [deny_ssh; allow_https] = Returns [deny_ssh; allow_https]
  ∧ Forall (λ r, ¬ is_default r) [deny_ssh; allow_https]
  ∧ combine_lists [deny_ssh; allow_https] [deny_ssh; allow_https]
    = Returns [deny_ssh; allow_https].
Proof.
  assert (combine_lists [deny_ssh] [deny_ssh; allow_https]
          = Returns [deny_ssh; allow_https]) as Hout by compute_done.
  assert (Forall (λ r, ¬ is_default r) [deny_ssh; allow_https]) as Hnew
    by (repeat constructor; compute_done).
  split_and!; [done..|]. exact (merge_again_adds_nothing _ _ _ Hout Hnew).
Defined.

Lemma combine_lists_raises_witness :
  combine_lists [deny_ssh] [no_dest_port] = Raises (KeyError (VStr "destPort"))
  ∧ ∃ l1 r l2, [deny_ssh] ++ [no_dest_port] = l1 ++ r :: l2 ∧ Forall well_keyed l1.
Proof.
  assert (combine_lists [deny_ssh] [no_dest_port]
          = Raises (KeyError (VStr "destPort"))) as Hraise by compute_done.
  split; [done|].
  destruct (combine_lists_raises _ _ _ Hraise) as (l1 & r & l2 & _ & _ & Heq & Hl1 & _).
  eauto.
Defined.

Lemma name_to_id_last_wins_witness :
  name_to_id servers_twice !! VStr "Servers" = Some "9".
Proof.
  apply (proj2 (name_to_id_last_wins servers_twice)
           [{| entity_name := "Servers"; entity_id := "7" |};
            {| entity_name := "Web-Server"; entity_id := "3" |}]
           {| entity_name := "Servers"; entity_id := "9" |} []);
    [reflexivity|]. intros e' He'. by apply elem_of_nil in He'.
Defined.

Lemma startup_outcome_witness :
  program no_filter two_servers (start servers_exist)
  = main no_filter two_servers
      {| remote := servers_exist;
         policy_objects_name_to_id := name_to_id [];
         policy_group_objects_name_to_id :=
           name_to_id [{| entity_name := "Servers"; entity_id := "7" |}];
         history := [] ++ [Called ListPolicyObjects true;
                           Called ListPolicyObjectGroups true] |}.
Proof.
  assert (getOrganizationPolicyObjects (remote (start servers_exist))
          = (Success [], servers_exist)) as Hobjects by reflexivity.
  assert (getOrganizationPolicyObjectsGroups servers_exist
          = (Success [{| entity_name := "Servers"; entity_id := "7" |}],
             servers_exist)) as Hgroups by reflexivity.
  destruct (startup_outcome no_filter two_servers (start servers_exist)
              _ _ Hobjects) as [_ Hsecond].
  destruct (Hsecond _ _ _ eq_refl Hgroups) as [_ Hmain].
  exact (Hmain _ eq_refl).
Defined.

Lemma get_org_appliance_networks_filter_witness :
  ∃ appliance_networks,
    (get_org_appliance_networks only_branch_2 (start two_branches)).1
    = Returns (None, Payload appliance_networks)
    ∧ branch_2 ∈ appliance_networks.
Proof.
  assert (getOrganizationNetworks (remote (start two_branches))
          = (Success [branch_1; branch_2], two_branches)) as Hsdk by reflexivity.
  destruct (get_org_appliance_networks_filter only_branch_2 (start two_branches)
              _ _ Hsdk) as (appliance_networks & Hret & _ & Hin).
  exists appliance_networks. split; [exact Hret|]. apply Hin. split_and!.
  - right. left.
  - left.
  - right. left.
Defined.

Lemma apply_rules_merge_witness :
  (apply_rules false (inl branch_1) [allow_https] (start two_branches)).1
  = Returns [deny_ssh; allow_https].
Proof.
  assert (combine_lists [deny_ssh] [allow_https] = Returns [deny_ssh; allow_https])
    as Hmerge by compute_done.
  assert (getNetworkApplianceFirewallL3FirewallRules (net_id branch_1)
            (remote (start two_branches))
          = (Success [deny_ssh], two_branches)) as Hget by reflexivity.
  exact (proj1 (apply_rules_merge branch_1 [allow_https] [deny_ssh]
                  [deny_ssh; allow_https] two_branches (start two_branches)
                  Hget Hmerge)).
Defined.

Lemma item_failures_are_skipped_witness :
  (provision (server "A" "10.1.1.1/32") (start groups_refused)).1 = Returns ()
  ∧ (apply_rules false (inl branch_1) [allow_https]
       (start
          {| catalog_objects := Success [];
             catalog_groups := Success [];
             networks := Success [branch_1];
             on_create_object := on_create_object two_branches;
             on_create_group := on_create_group two_branches;
             on_get_rules := λ _, SDKError "timed out";
             on_update_rules := on_update_rules two_branches |})).1
    = Returns [allow_https].
Proof.
  split.
  - destruct (item_failures_are_skipped (start groups_refused)) as (Hgroup & _).
    refine (proj1 (Hgroup (server "A" "10.1.1.1/32") (VStr "Servers")
                     (APIError (Some "400") "400 Bad Request") groups_refused
                     _ _ _ _ _)); [reflexivity|discriminate|reflexivity|reflexivity|reflexivity].
  - match goal with |- (apply_rules _ _ _ (start ?s)).1 = _ =>
      destruct (item_failures_are_skipped (start s)) as (_ & _ & Hfetch & _);
      refine (proj1 (Hfetch branch_1 [allow_https] (SDKError "timed out") s _ I));
      reflexivity
    end.
Defined.

Lemma merge_failure_stops_loop_witness :
  (for_each_network false [inl branch_1; inl branch_2] [allow_https]
     (start damaged_rules)).1
  = Raises (KeyError (VStr "destPort"))
  ∧ history (for_each_network false [inl branch_1; inl branch_2] [allow_https]
               (start damaged_rules)).2
    = [] ++ [Called (GetRules "N_1") true].
Proof.
  assert (combine_lists [no_dest_port] [allow_https]
          = Raises (KeyError (VStr "destPort"))) as Hraise by compute_done.
  assert (getNetworkApplianceFirewallL3FirewallRules (net_id branch_1)
            (remote (start damaged_rules))
          = (Success [no_dest_port], damaged_rules)) as Hget by reflexivity.
  exact (merge_failure_stops_loop branch_1 [inl branch_2] [allow_https]
           [no_dest_port] (KeyError (VStr "destPort")) damaged_rules
           (start damaged_rules) Hget Hraise).
Defined.

Lemma provision_calls_witness :
  calls (history (provision web_server (start two_branches)).2)
  = calls [] ++ [CreatePolicyObject (Cell <$> web_server)]
  ∧ calls (history (provision (server "A" "10.1.1.1/32") (start two_branches)).2)
    = calls []
      ++ [CreatePolicyObjectGroup
            {[ "name" := Cell (VStr "Servers");
               "category" := Cell (VStr "NetworkObjectGroup") ]};
          CreatePolicyObject
            (<["groupIds" := Ids ["1"]]>
               (delete "_group_name" (Cell <$> server "A" "10.1.1.1/32")))].
Proof.
  split.
  - destruct (provision_calls web_server (start two_branches)) as (Hplain & _).
    apply Hplain. left. reflexivity.
  - destruct (provision_calls (server "A" "10.1.1.1/32") (start two_branches))
      as (_ & _ & Hnew).
    refine (proj1 (Hnew (VStr "Servers")
                     {| entity_name := "Servers"; entity_id := "1" |}
                     two_branches _ _ _ _));
      [reflexivity|discriminate|reflexivity|reflexivity].
Defined.

Lemma nameless_object_aborts_witness :
  nameless !! "name" = None
  ∧ (create_and_report nameless (start two_branches)).1
    = Raises (KeyError (VStr "name")).
Proof.
  assert (nameless !! "name" = None) as Hname by reflexivity.
  split; [done|].
  refine (proj1 (nameless_object_aborts nameless (start two_branches) Hname
                   (Success {| entity_name := ""; entity_id := "1" |})
                   two_branches _ _)); [reflexivity|].
  intros msg. split; discriminate.
Defined.
